(** * ImplantSVG: probe/hole assignments on a labelled implant drawing

    A shallow embedding of [implant_drawing.py] (class [ImplantSVG]) and the
    properties of its assignment store, its label space, its persistence
    helpers and its text-substitution renderer.

    Conventions of the embedding:
    - a Python [str] is a [string] (its UTF-8 bytes);
    - a Python [dict] with [str] keys is an insertion-ordered association
      list with unique keys ([Dict.t]);
    - [str | None] is [option string];
    - a method that reads or writes [self] is a computation in the monad
      [M], which threads the instance and records the exception raised, if
      any, together with the instance as it was when the exception left. *)

From Stdlib Require Import List String Ascii ZArith Lia Bool Arith DecimalString.
From Stdlib Require Import Sorted Permutation.
Import ListNotations.
Open Scope string_scope.

Set Implicit Arguments.

(** ** Python dictionaries with string keys *)

Module Dict.

Definition t (V : Type) : Type := list (string * V).

Definition empty {V} : t V := [].

(** [d[k]] as a lookup; [None] is the [KeyError] case. *)
Fixpoint get {V} (k : string) (d : t V) : option V :=
  match d with
  | [] => None
  | (k', v') :: d' => if k' =? k then Some v' else get k d'
  end.

(** [d[k] = v]: an existing key keeps its position, a new key goes last. *)
Fixpoint set {V} (k : string) (v : V) (d : t V) : t V :=
  match d with
  | [] => [(k, v)]
  | (k', v') :: d' => if k' =? k then (k', v) :: d' else (k', v') :: set k v d'
  end.

Definition keys {V} (d : t V) : list string := map fst d.
Definition values {V} (d : t V) : list V := map snd d.
Definition items {V} (d : t V) : list (string * V) := d.

(** [dict(pairs)]: later pairs overwrite earlier ones. *)
Definition of_pairs {V} (ps : list (string * V)) : t V :=
  fold_left (fun d kv => set (fst kv) (snd kv) d) ps empty.

End Dict.

(** ** Small pieces of Python *)

(** [x == y] on [str | None]. *)
Definition opt_eqb (x y : option string) : bool :=
  match x, y with
  | None, None => true
  | Some a, Some b => a =? b
  | _, _ => false
  end.

(** Truth value of a [str | None]: [None] and the empty string are false. *)
Definition truthy (x : option string) : bool :=
  match x with
  | None => false
  | Some s => negb (s =? "")
  end.

(** [x in xs] for a list of strings. *)
Definition str_in (x : string) (xs : list string) : bool :=
  existsb (String.eqb x) xs.

(** [str.lower] on the ASCII letters; every other byte is kept.  No
    character outside ASCII lowers to one of the letters of ["none"], so the
    test [hole.lower() == 'none'] is decided exactly. *)
Definition lower_ascii (c : ascii) : ascii :=
  let n := nat_of_ascii c in
  if (65 <=? n)%nat && (n <=? 90)%nat then ascii_of_nat (n + 32) else c.

Fixpoint lower (s : string) : string :=
  match s with
  | "" => ""
  | String c s' => String (lower_ascii c) (lower s')
  end.

(** [f"{i}"] for an [int]. *)
Definition str_of_int (i : Z) : string :=
  NilZero.string_of_int (Z.to_int i).

(** [str.replace(old, new)]: the occurrences of [old] are found from left to
    right and do not overlap.  [skip] counts the characters of the last
    occurrence that are still to be passed over.  Python replaces over code
    points and this function over UTF-8 bytes; the two agree, an encoded
    string occurring in another one at character boundaries only. *)
Fixpoint replace_from (old new : string) (skip : nat) (s : string) : string :=
  match s with
  | "" => ""
  | String c s' =>
      match skip with
      | S k => replace_from old new k s'
      | O =>
          if prefix old s
          then new ++ replace_from old new (String.length old - 1) s'
          else String c (replace_from old new 0 s')
      end
  end.

(** With an empty [old], Python puts [new] before every character and at
    the end. *)
Fixpoint intersperse (new s : string) : string :=
  match s with
  | "" => new
  | String c s' => new ++ String c (intersperse new s')
  end.

Definition replace (old new s : string) : string :=
  match old with
  | "" => intersperse new s
  | _ => replace_from old new 0 s
  end.

(** ** Exceptions *)

Inductive ValueError_msg : Type :=
| probe_must_be_one_of_A_F      (* "'probe' must be one of A-F: ..." *)
| index_must_be_in_range        (* "index must be in range 1-...: ..." *)
| hole_index_must_be_label.     (* "'hole_index' must be 'A1','B2', etc., ..." *)

Inductive exn : Type :=
| ValueError (m : ValueError_msg)
| KeyError (k : string)
| IndexError
| RecursionError.

(** ** The class *)

Section ImplantSVG.

(** [cls.labels]: the integer labels of every group, in dictionary order. *)
Variable labels : Dict.t (list Z).

(** [strings = list(f"{k}{i}" for k,v in labels.items() for i in v)] *)
Definition strings : list string :=
  flat_map (fun kv => map (fun i => fst kv ++ str_of_int i) (snd kv))
           (Dict.items labels).

(** [hole_memory_default = dict(zip(strings, strings))] *)
Definition hole_memory_default : Dict.t string :=
  Dict.of_pairs (combine strings strings).

(** [list('ABCDEF')] *)
Definition probes : list string := ["A"; "B"; "C"; "D"; "E"; "F"].

(** The instance attributes, all of them set: what [__init__] leaves when no
    targets file exists, and what every later call works on. *)
Record ImplantSVG : Type := mkImplantSVG {
  svg : string;
  probe_memory : Dict.t (option string);
  hole_memory : Dict.t (option string)
}.

(** *** Methods as stateful, fallible computations *)

Definition M (A : Type) : Type := ImplantSVG -> (exn + A) * ImplantSVG.

Definition ret {A} (a : A) : M A := fun self => (inr a, self).

Definition bind {A B} (c : M A) (k : A -> M B) : M B :=
  fun self =>
    match c self with
    | (inl e, self') => (inl e, self')
    | (inr a, self') => k a self'
    end.

Definition raise {A} (e : exn) : M A := fun self => (inl e, self).

Definition lift {A} (r : exn + A) : M A := fun self => (r, self).

Notation "x <- c ;; k" := (bind c (fun x => k))
  (at level 61, c at next level, right associativity).
Notation "c ;; k" := (bind c (fun _ => k))
  (at level 61, right associativity).

Definition when (b : bool) (c : M unit) : M unit :=
  if b then c else ret tt.

Fixpoint for_each {A} (xs : list A) (body : A -> M unit) : M unit :=
  match xs with
  | [] => ret tt
  | x :: xs' => body x ;; for_each xs' body
  end.

(** [self.probe_memory[k]] *)
Definition probe_memory_get (k : string) : M (option string) :=
  fun self =>
    match Dict.get k (probe_memory self) with
    | Some v => (inr v, self)
    | None => (inl (KeyError k), self)
    end.

(** [self.probe_memory[k] = v] *)
Definition probe_memory_set (k : string) (v : option string) : M unit :=
  fun self =>
    (inr tt, mkImplantSVG (svg self) (Dict.set k v (probe_memory self))
                          (hole_memory self)).

(** [self.hole_memory[k] = v] *)
Definition hole_memory_set (k : string) (v : option string) : M unit :=
  fun self =>
    (inr tt, mkImplantSVG (svg self) (probe_memory self)
                          (Dict.set k v (hole_memory self))).

Definition probe_memory_keys : M (list string) :=
  fun self => (inr (Dict.keys (probe_memory self)), self).

Definition probe_memory_values : M (list (option string)) :=
  fun self => (inr (Dict.values (probe_memory self)), self).

(** [__init__] when no targets file of today exists: the drawing is the
    one read from [path] (or the class default), every probe and every
    hole is unassigned. *)
Definition init (svg0 : string) : ImplantSVG :=
  mkImplantSVG svg0
    (Dict.of_pairs (combine probes (repeat None 6)))
    (Dict.of_pairs (combine strings (repeat None (List.length strings)))).

(** [index_to_label]: integer to string label, 0 -> A1, 1 -> A2, ... *)
Definition index_to_label (index : option Z) : exn + option string :=
  match index with
  | None => inr None
  | Some i =>
      if negb ((0 <=? i)%Z && (i <? Z.of_nat (List.length strings))%Z)
      then inl (ValueError index_must_be_in_range)
      else match nth_error strings (Z.to_nat i) with
           | Some l => inr (Some l)
           | None => inl IndexError
           end
  end.

(** The argument [hole : None | int | str] of [set_probe_hole]. *)
Inductive hole_arg : Type :=
| HNone
| HInt (i : Z)
| HStr (s : string).

(** Lines 137-144 of [set_probe_hole]: the label an argument stands for. *)
Definition label_of_hole (hole : hole_arg) : exn + option string :=
  match hole with
  | HInt i => index_to_label (Some i)
  | HNone => inr None
  | HStr s =>
      if str_in s strings then inr (Some s)
      else if lower s =? "none" then inr None
      else inl (ValueError hole_index_must_be_label)
  end.

(** The body of [set_probe_hole]; [self_set_probe_hole] is the method
    itself, for the call at line 158. *)
Definition set_probe_hole_body
    (self_set_probe_hole : string -> hole_arg -> M unit)
    (probe : string) (hole : hole_arg) : M unit :=
  if negb (str_in probe probes)
  then raise (ValueError probe_must_be_one_of_A_F)
  else
    label <- lift (label_of_hole hole) ;;
    current_label <- probe_memory_get probe ;;
    if opt_eqb current_label label
    then ret tt                                   (* already assigned *)
    else
      when (truthy current_label)
           (match current_label with
            | Some l => hole_memory_set l None
            | None => ret tt
            end) ;;
      vals <- probe_memory_values ;;
      when (truthy label && existsb (opt_eqb label) vals)
           (ks <- probe_memory_keys ;;
            for_each ks (fun other_probe =>
              v <- probe_memory_get other_probe ;;
              when (opt_eqb v label)
                   (self_set_probe_hole other_probe HNone))) ;;
      probe_memory_set probe label ;;
      when (truthy label)
           (match label with
            | Some l => hole_memory_set l (Some probe)
            | None => ret tt
            end).

(** [set_probe_hole] with a bound on the depth of the call stack, as the
    interpreter has one. *)
Fixpoint set_probe_hole (depth : nat) (probe : string) (hole : hole_arg)
  : M unit :=
  match depth with
  | O => raise RecursionError
  | S d => set_probe_hole_body (set_probe_hole d) probe hole
  end.

(** *** Persistence

    The file at a path is modelled by what [json.load] reads from it when
    that is a dictionary whose values are strings or [None], as in every
    file that [targets_to_disk] writes from a [probe_memory]: [None] when
    the path does not exist, otherwise that dictionary.  A file that holds
    another JSON value (a list, a number, an object with other values) has
    no counterpart here, and neither has what [load_targets] and
    [show_targets] raise on it. *)

Definition file : Type := option (Dict.t (option string)).

(** [json.dump(..., sort_keys=True)] writes the items by increasing key. *)
Fixpoint insert_sorted (kv : string * option string)
         (d : Dict.t (option string)) : Dict.t (option string) :=
  match d with
  | [] => [kv]
  | kv' :: d' =>
      if String.leb (fst kv) (fst kv') then kv :: d
      else kv' :: insert_sorted kv d'
  end.

Definition sort_keys (d : Dict.t (option string)) : Dict.t (option string) :=
  fold_right insert_sorted [] d.

(** [targets_to_disk]: the contents of the file after the call. *)
Definition targets_to_disk (targets : Dict.t (option string)) : file :=
  Some (sort_keys targets).

(** [targets_from_disk] *)
Definition targets_from_disk (f : file) : option (Dict.t (option string)) :=
  match f with
  | Some d => Some d
  | None => None
  end.

(** [save]: the contents of the file it writes.  ([save] and
    [load_targets] have different default paths; a round trip passes the
    same path to both.) *)
Definition save (self : ImplantSVG) : file :=
  targets_to_disk (probe_memory self).

(** Truth value of [None | dict]: [None] and the empty dict are false. *)
Definition truthy_dict (t : option (Dict.t (option string))) : bool :=
  match t with
  | Some (_ :: _) => true
  | _ => false
  end.

Definition probe_memory_items : M (list (string * option string)) :=
  fun self => (inr (Dict.items (probe_memory self)), self).

(** [load_targets].  The inner [for] has no [break], so its [else] suite
    runs every time the loop ends. *)
Definition load_targets (f : file) : M unit :=
  match targets_from_disk f with
  | Some targets =>
      if truthy_dict (Some targets) then
        (fun self =>
           (inr tt, mkImplantSVG (svg self) targets (hole_memory self))) ;;
        for_each strings (fun label =>
          its <- probe_memory_items ;;
          for_each its (fun kv =>
            when (opt_eqb (snd kv) (Some label))
                 (hole_memory_set label (Some (fst kv)))) ;;
          hole_memory_set label None)
      else ret tt
  | None => ret tt
  end.

(** *** Rendering *)

(** [f">{textlabel}</tspan>"] *)
Definition placeholder (textlabel : string) : string :=
  ">" ++ textlabel ++ "</tspan>".

(** [f"> {probe}</tspan>"] and [f"></tspan>"] *)
Definition marker (probe : option string) : string :=
  match probe with
  | Some p => "> " ++ p ++ "</tspan>"
  | None => "></tspan>"
  end.

(** [show_memory]: the [data] handed to [IPython.display.SVG]. *)
Definition show_memory (self : ImplantSVG) : string :=
  fold_left
    (fun data kv => replace (placeholder (fst kv)) (marker (snd kv)) data)
    (Dict.items (hole_memory self)) (svg self).

(** [list(targets.keys())[list(targets.values()).index(textlabel)]] *)
Fixpoint first_key_of (textlabel : string) (targets : Dict.t (option string))
  : option string :=
  match targets with
  | [] => None
  | (k, v) :: targets' =>
      if opt_eqb v (Some textlabel) then Some k
      else first_key_of textlabel targets'
  end.

(** Lines 123-130 of [show_targets]: the [data] handed to
    [IPython.display.SVG], from the drawing and the dictionary [targets]
    that lines 103-115 build. *)
Definition show_targets_data (svg0 : string)
           (targets : Dict.t (option string)) : string :=
  fold_left
    (fun data textlabel =>
       if existsb (fun v => opt_eqb v (Some textlabel)) (Dict.values targets)
       then replace (placeholder textlabel)
                    (marker (first_key_of textlabel targets)) data
       else replace (placeholder textlabel) (marker None) data)
    strings svg0.

End ImplantSVG.

(** ** [show_targets], from its arguments *)

(** What [show_targets] raises. *)
Inductive show_targets_exn : Type :=
| ValueError_target_holes                      (* "'target_holes' must be a list of 6 ..." *)
| ValueError_invalid_target (target : string)  (* "Invalid target=...: available labels are ..." *)
| KeyError_labels (target_group : string).     (* [cls.labels[target_group]] *)

Section ShowTargets.

Variable labels : Dict.t (list Z).

(** Truth value of a [None | int | str]. *)
Definition truthy_hole (hole : hole_arg) : bool :=
  match hole with
  | HNone => false
  | HInt i => negb (i =? 0)%Z
  | HStr s => negb (s =? "")
  end.

(** [isinstance(i, int|None)] and [isinstance(i, str|None)] *)
Definition is_int_or_none (hole : hole_arg) : bool :=
  match hole with
  | HStr _ => false
  | _ => true
  end.

Definition is_str_or_none (hole : hole_arg) : bool :=
  match hole with
  | HInt _ => false
  | _ => true
  end.

(** [f"{hole}"] *)
Definition format_hole (hole : hole_arg) : string :=
  match hole with
  | HNone => "None"
  | HInt i => str_of_int i
  | HStr s => s
  end.

(** A [str | None] among the arguments, as a value of the dictionary. *)
Definition str_or_none (hole : hole_arg) : option string :=
  match hole with
  | HStr s => Some s
  | _ => None
  end.

(** [target[0]]: the first character, that is, the bytes of its UTF-8
    encoding. *)
Definition first_char (target : string) : string :=
  match target with
  | "" => ""
  | String c _ =>
      let n := nat_of_ascii c in
      substring 0 (if (n <? 128)%nat then 1
                   else if (n <? 224)%nat then 2
                   else if (n <? 240)%nat then 3 else 4)%nat target
  end.

(** Lines 109-113: the loop over [enumerate('ABCDEF')], on a list of six. *)
Definition targets_of_ints (target_holes : list hole_arg)
  : Dict.t (option string) :=
  fold_left
    (fun targets ip =>
       let hole := nth (fst ip) target_holes HNone in
       if truthy_hole hole
       then Dict.set (snd ip) (Some (snd ip ++ format_hole hole)) targets
       else Dict.set (snd ip) None targets)
    (combine (seq 0 6) probes) Dict.empty.

(** Lines 103-115: the dictionary [targets]. *)
Definition resolve_targets (disk : file) (target_holes : list hole_arg)
  : Dict.t (option string) :=
  if negb (existsb truthy_hole target_holes)
     && truthy_dict (targets_from_disk disk)
  then match targets_from_disk disk with
       | Some from_disk => from_disk
       | None => Dict.empty
       end
  else if forallb is_int_or_none target_holes
       then targets_of_ints target_holes
       else if forallb is_str_or_none target_holes
            then Dict.of_pairs (combine probes (map str_or_none target_holes))
            else Dict.empty.

(** Lines 117-121: the first target that is no label decides what is
    raised. *)
Fixpoint check_targets (its : list (string * option string))
  : option show_targets_exn :=
  match its with
  | [] => None
  | (probe, target) :: its' =>
      match target with
      | Some t =>
          if truthy target && negb (str_in t (strings labels))
          then match Dict.get (first_char t) labels with
               | Some available_labels => Some (ValueError_invalid_target t)
               | None => Some (KeyError_labels (first_char t))
               end
          else check_targets its'
      | None => check_targets its'
      end
  end.

(** [show_targets]: the [data] that line 131 hands to
    [IPython.display.SVG], or what lines 98-121 raise; [svg0] is [cls.svg]
    and [disk] the targets file of today.  What [IPython.display.SVG] does
    with the data, which it parses, is outside the model. *)
Definition show_targets (svg0 : string) (disk : file)
           (target_holes : list hole_arg) : show_targets_exn + string :=
  if negb (List.length target_holes =? 6)%nat
  then inl ValueError_target_holes
  else
    let targets := resolve_targets disk target_holes in
    match check_targets (Dict.items targets) with
    | Some e => inl e
    | None => inr (show_targets_data labels svg0 targets)
    end.

End ShowTargets.

(** The label space of the class as shipped (implant DR1). *)
Definition DR1_labels : Dict.t (list Z) :=
  [ ("A", [1; 2; 3]%Z); ("B", [1; 2; 3; 4]%Z); ("C", [1; 2; 3; 4]%Z);
    ("D", [1; 2; 3]%Z); ("E", [1; 2; 3; 4]%Z); ("F", [1; 2; 3]%Z) ].


(** * Vocabulary of the properties *)

(** What the loop of lines 156-158 does to [probe_memory]. *)
Definition clear_label (label : option string) (pm : Dict.t (option string))
  : Dict.t (option string) :=
  map (fun kv => (fst kv, if opt_eqb (snd kv) label then None else snd kv)) pm.

(** The instance a successful [set_probe_hole probe hole] leaves, [label]
    being what [hole] stands for and [cur] the label [probe] held. *)
Definition assigned (probe : string) (label cur : option string)
           (self : ImplantSVG) : ImplantSVG :=
  if opt_eqb cur label then self
  else
    let hm1 := match cur with
               | Some l => if truthy cur then Dict.set l None (hole_memory self)
                           else hole_memory self
               | None => hole_memory self
               end in
    let taken := truthy label
                 && existsb (opt_eqb label) (Dict.values (probe_memory self)) in
    let pm2 := if taken then clear_label label (probe_memory self)
               else probe_memory self in
    let hm2 := match label with
               | Some l => if taken then Dict.set l None hm1 else hm1
               | None => hm1
               end in
    mkImplantSVG (svg self) (Dict.set probe label pm2)
                 (match label with
                  | Some l => if truthy label then Dict.set l (Some probe) hm2
                              else hm2
                  | None => hm2
                  end).

(** [rec] behaves as [set_probe_hole(q, None)] does on an assigned probe. *)
Definition unassigns (rec : string -> hole_arg -> M unit) : Prop :=
  forall q l self,
    str_in q probes = true ->
    Dict.get q (probe_memory self) = Some (Some l) ->
    l <> "" ->
    rec q HNone self
    = (inr tt, mkImplantSVG (svg self) (Dict.set q None (probe_memory self))
                            (Dict.set l None (hole_memory self))).

(** The instances a fresh one can become through successful calls of
    [set_probe_hole]. *)
Inductive reachable (labels : Dict.t (list Z)) : ImplantSVG -> Prop :=
| reachable_init svg0 : reachable labels (init labels svg0)
| reachable_assign self depth probe hole self' :
    reachable labels self ->
    set_probe_hole labels depth probe hole self = (inr tt, self') ->
    reachable labels self'.

(** [hole_memory] is [probe_memory] reversed, and no hole has two probes. *)
Definition consistent (self : ImplantSVG) : Prop :=
  (forall l p, Dict.get l (hole_memory self) = Some (Some p)
               <-> Dict.get p (probe_memory self) = Some (Some l))
  /\ (forall p1 p2 l, Dict.get p1 (probe_memory self) = Some (Some l) ->
                      Dict.get p2 (probe_memory self) = Some (Some l) ->
                      p1 = p2).

(** What holds of every reachable instance. *)
Record well_formed (labels : Dict.t (list Z)) (self : ImplantSVG) : Prop := {
  wf_probes : Dict.keys (probe_memory self) = probes;
  wf_holes : Dict.keys (hole_memory self)
             = Dict.keys (hole_memory (init labels ""));
  wf_valid : forall p l, Dict.get p (probe_memory self) = Some (Some l) ->
                         In l (strings labels);
  wf_inverse : forall l p, Dict.get l (hole_memory self) = Some (Some p)
                           <-> Dict.get p (probe_memory self) = Some (Some l)
}.

(** Decimal digits, and strings that end with one. *)
Definition is_digit (c : ascii) : bool :=
  let n := nat_of_ascii c in (48 <=? n)%nat && (n <=? 57)%nat.

Fixpoint ends_with_digit (s : string) : bool :=
  match s with
  | "" => false
  | String c s' =>
      match s' with
      | "" => is_digit c
      | _ => ends_with_digit s'
      end
  end.


(** The argument that names a label, or no label, as itself. *)
Definition hole_of_label (v : option string) : hole_arg :=
  match v with
  | Some l => HStr l
  | None => HNone
  end.

(** A label space of two groups. *)
Definition AB_labels : Dict.t (list Z) :=
  [ ("A", [1; 2; 3]%Z); ("B", [1; 2; 3; 4]%Z) ].


(** An instance of the class as shipped, probe A in hole B2. *)
Definition A_in_B2 : ImplantSVG :=
  snd (set_probe_hole DR1_labels 2 "A" (HStr "B2")
         (init DR1_labels
               "<text id='B2'><tspan>B2</tspan><tspan>A1</tspan></text>")).

(** *** Rendering, piece by piece

    A drawing is cut at every [>]; a placeholder of label [l] is then a
    piece [l ++ "</tspan"] that has a [>] before it and a [>] after it. *)

(** No [>] in the string. *)
Fixpoint gt_free (s : string) : bool :=
  match s with
  | "" => true
  | String c s' => negb (Ascii.eqb c ">") && gt_free s'
  end.

(** [s.split(">")] *)
Fixpoint split_gt (s : string) : list string :=
  match s with
  | "" => [""]
  | String c s' =>
      if Ascii.eqb c ">" then "" :: split_gt s'
      else match split_gt s' with
           | piece :: pieces => String c piece :: pieces
           | [] => [String c ""]
           end
  end.

(** The pieces after the first one, each behind its [>]. *)
Fixpoint tail_str (pieces : list string) : string :=
  match pieces with
  | [] => ""
  | piece :: pieces' => String ">" (piece ++ tail_str pieces')
  end.

(** [f] on every piece but the last. *)
Fixpoint map_init (f : string -> string) (pieces : list string) : list string :=
  match pieces with
  | [] => []
  | piece :: pieces' =>
      match pieces' with
      | [] => [piece]
      | _ => f piece :: map_init f pieces'
      end
  end.

(** [f] on every piece but the first and the last. *)
Definition map_inner (f : string -> string) (pieces : list string)
  : list string :=
  match pieces with
  | [] => []
  | piece :: pieces' => piece :: map_init f pieces'
  end.

(** The pieces that have a [>] on both sides. *)
Definition inner (pieces : list string) : list string :=
  removelast (tl pieces).

(** The text shown for a hole: the probe after a blank, or nothing. *)
Definition shown_text (probe : option string) : string :=
  match probe with
  | Some p => " " ++ p
  | None => ""
  end.

(** One piece goes to another, every other piece stays. *)
Definition subst_piece (old new piece : string) : string :=
  if piece =? old then new else piece.

(** What a rendering makes of a piece: the placeholder of a label of [ls]
    gets the text shown for this label, any other piece stays. *)
Fixpoint render_piece (ls : list string) (shown : string -> option string)
         (piece : string) : string :=
  match ls with
  | [] => piece
  | l :: ls' =>
      if piece =? l ++ "</tspan" then shown_text (shown l) ++ "</tspan"
      else render_piece ls' shown piece
  end.

(** The rendering as one pass over the pieces of the drawing. *)
Definition render_pieces (ls : list string) (shown : string -> option string)
           (svg0 : string) : string :=
  concat ">" (map_inner (render_piece ls shown) (split_gt svg0)).

(** The number of placeholders of a label in a drawing. *)
Definition placeholders (l svg0 : string) : nat :=
  count_occ string_dec (inner (split_gt svg0)) (l ++ "</tspan").

(** A label without [>] that starts with neither a blank nor [<]. *)
Definition plain_label (l : string) : bool :=
  gt_free l
  && match l with
     | "" => false
     | String c _ => negb (Ascii.eqb c " ") && negb (Ascii.eqb c "<")
     end.

Fixpoint distinct (ls : list string) : bool :=
  match ls with
  | [] => true
  | l :: ls' => negb (str_in l ls') && distinct ls'
  end.

(** A label space of distinct plain labels. *)
Definition plain_labels (labels : Dict.t (list Z)) : bool :=
  forallb plain_label (strings labels) && distinct (strings labels).

(** [hole_memory[l]], that is, the probe in hole [l] if any. *)
Definition holder (self : ImplantSVG) (l : string) : option string :=
  match Dict.get l (hole_memory self) with
  | Some v => v
  | None => None
  end.

(** What a dictionary of targets shows for label [l]: the first key, in the
    order of the dictionary, whose target is [l]; no probe when no key has
    this target. *)
Definition shown_for (targets : Dict.t (option string)) (l : string)
           (probe : option string) : Prop :=
  match probe with
  | Some p =>
      exists before after,
        targets = (before ++ (p, Some l) :: after)%list
        /\ forall kv, In kv before -> snd kv <> Some l
  | None => forall kv, In kv targets -> snd kv <> Some l
  end.

(** *** Vocabulary of the further properties *)

(** The drawing and the keys of [probe_memory] are the same in both. *)
Definition same_drawing_and_probes (self self' : ImplantSVG) : Prop :=
  svg self' = svg self
  /\ Dict.keys (probe_memory self') = Dict.keys (probe_memory self).

(** An instance that holds a probe of someone else's record: the record
    [{A: A2, G: A1}] loaded into a fresh instance, then probe A moved to
    hole A3. *)
Definition foreign_instance : ImplantSVG :=
  snd (set_probe_hole DR1_labels 2 "A" (HStr "A3")
         (snd (load_targets DR1_labels
                 (Some [("A", Some "A2"); ("G", Some "A1")])
                 (init DR1_labels "")))).

(** * Properties *)

(** ** Dictionaries *)

Module DictFacts.
Import Dict.

Lemma get_set_same {V} (k : string) (v : V) (d : t V) :
  get k (set k v d) = Some v.
Proof.
  induction d as [|[k' v'] d IH]; simpl.
  - now rewrite String.eqb_refl.
  - destruct (k' =? k) eqn:E; simpl; rewrite E; auto.
Qed.

Lemma get_set_other {V} (k k' : string) (v : V) (d : t V) :
  k <> k' -> get k' (set k v d) = get k' d.
Proof.
  intros Hne. induction d as [|[k0 v0] d IH]; simpl.
  - destruct (k =? k') eqn:E; auto. apply String.eqb_eq in E. contradiction.
  - destruct (k0 =? k) eqn:E; simpl.
    + apply String.eqb_eq in E. subst k0.
      destruct (k =? k') eqn:E'; auto.
      apply String.eqb_eq in E'. contradiction.
    + now rewrite IH.
Qed.

Lemma get_set {V} (k k' : string) (v : V) (d : t V) :
  get k' (set k v d) = if k =? k' then Some v else get k' d.
Proof.
  destruct (k =? k') eqn:E.
  - apply String.eqb_eq in E. subst. apply get_set_same.
  - apply String.eqb_neq in E. now apply get_set_other.
Qed.

Lemma get_some_in_keys {V} (k : string) (v : V) (d : t V) :
  get k d = Some v -> In k (keys d).
Proof.
  induction d as [|[k' v'] d IH]; simpl; [discriminate|].
  destruct (k' =? k) eqn:E; auto.
  apply String.eqb_eq in E. auto.
Qed.

Lemma in_keys_get {V} (k : string) (d : t V) :
  In k (keys d) -> exists v, get k d = Some v.
Proof.
  induction d as [|[k' v'] d IH]; simpl; [tauto|].
  intros [->|H].
  - rewrite String.eqb_refl. eauto.
  - destruct (k' =? k); eauto.
Qed.

Lemma get_none_not_in_keys {V} (k : string) (d : t V) :
  get k d = None <-> ~ In k (keys d).
Proof.
  split.
  - intros H Hin. apply in_keys_get in Hin. destruct Hin as [v Hv]. congruence.
  - intros H. destruct (get k d) eqn:E; auto.
    apply get_some_in_keys in E. contradiction.
Qed.

Lemma keys_set_in {V} (k : string) (v : V) (d : t V) :
  In k (keys d) -> keys (set k v d) = keys d.
Proof.
  induction d as [|[k' v'] d IH]; simpl; [tauto|].
  intros H. destruct (k' =? k) eqn:E; simpl; auto.
  f_equal. apply IH. destruct H as [->|H]; auto.
  rewrite String.eqb_refl in E. discriminate.
Qed.

Lemma keys_set_new {V} (k : string) (v : V) (d : t V) :
  ~ In k (keys d) -> keys (set k v d) = (keys d ++ [k])%list.
Proof.
  induction d as [|[k' v'] d IH]; simpl; auto.
  intros H. destruct (k' =? k) eqn:E; simpl.
  - apply String.eqb_eq in E. tauto.
  - f_equal. apply IH. tauto.
Qed.

Lemma set_set_same {V} (k : string) (v w : V) (d : t V) :
  set k w (set k v d) = set k w d.
Proof.
  induction d as [|[k' v'] d IH]; simpl.
  - now rewrite String.eqb_refl.
  - destruct (k' =? k) eqn:E; simpl; rewrite E; auto. now rewrite IH.
Qed.

Lemma get_app_r {V} (k : string) (d1 d2 : t V) :
  ~ In k (keys d1) -> get k (d1 ++ d2)%list = get k d2.
Proof.
  induction d1 as [|[k' v'] d1 IH]; simpl; auto.
  intros H. destruct (k' =? k) eqn:E.
  - apply String.eqb_eq in E. tauto.
  - apply IH. tauto.
Qed.

Lemma set_app_r {V} (k : string) (v : V) (d1 d2 : t V) :
  ~ In k (keys d1) -> set k v (d1 ++ d2)%list = (d1 ++ set k v d2)%list.
Proof.
  induction d1 as [|[k' v'] d1 IH]; simpl; auto.
  intros H. destruct (k' =? k) eqn:E.
  - apply String.eqb_eq in E. tauto.
  - f_equal. apply IH. tauto.
Qed.

(** An item of a dictionary is what its key looks up. *)
Lemma in_items_get {V} (k : string) (v : V) (d : t V) :
  NoDup (keys d) -> In (k, v) (items d) -> get k d = Some v.
Proof.
  unfold items. induction d as [|[k' v'] d IH]; simpl; [tauto|].
  intros Hnd [Heq|Hin].
  - inversion Heq. subst. now rewrite String.eqb_refl.
  - inversion Hnd as [|? ? Hk Hnd']. subst.
    destruct (k' =? k) eqn:E.
    + apply String.eqb_eq in E. subst. exfalso. apply Hk.
      change (In (fst (k, v)) (map fst d)). now apply in_map.
    + auto.
Qed.

Lemma get_in_items {V} (k : string) (v : V) (d : t V) :
  get k d = Some v -> In (k, v) (items d).
Proof.
  unfold items. induction d as [|[k' v'] d IH]; simpl; [discriminate|].
  destruct (k' =? k) eqn:E.
  - apply String.eqb_eq in E. intros [= ->]. subst. auto.
  - auto.
Qed.

(** [dict(zip(ks, vs))] keeps the order of distinct keys. *)
Lemma keys_fold_set {V} (ps : list (string * V)) (d : t V) :
  NoDup (keys d ++ map fst ps)%list ->
  keys (fold_left (fun d kv => set (fst kv) (snd kv) d) ps d)
  = (keys d ++ map fst ps)%list.
Proof.
  revert d. induction ps as [|[k v] ps IH]; intros d Hnd; simpl.
  - now rewrite app_nil_r.
  - simpl in Hnd.
    assert (Hk : ~ In k (keys d)).
    { intro Hin. apply NoDup_remove_2 in Hnd. apply Hnd.
      apply in_or_app. now left. }
    rewrite IH; rewrite keys_set_new by assumption.
    + now rewrite <- app_assoc.
    + rewrite <- app_assoc. exact Hnd.
Qed.

Lemma keys_of_pairs {V} (ps : list (string * V)) :
  NoDup (map fst ps) -> keys (of_pairs ps) = map fst ps.
Proof.
  intros H. unfold of_pairs. now rewrite keys_fold_set.
Qed.

Lemma get_fold_set_const {V} (v : V) (ps : list (string * V)) (d : t V) k :
  (forall kv, In kv ps -> snd kv = v) ->
  (forall w, get k d = Some w -> w = v) ->
  forall w, get k (fold_left (fun d kv => set (fst kv) (snd kv) d) ps d) = Some w ->
            w = v.
Proof.
  revert d. induction ps as [|[k' v'] ps IH]; intros d Hps Hd w; simpl.
  - apply Hd.
  - apply IH.
    + intros kv Hin. apply Hps. now right.
    + intros w'. rewrite get_set. destruct (k' =? k).
      * intros [= <-]. apply (Hps (k', v')). now left.
      * apply Hd.
Qed.

End DictFacts.

(** ** The assignment store *)

Lemma opt_eqb_eq (x y : option string) : opt_eqb x y = true <-> x = y.
Proof.
  destruct x, y; simpl; try (split; congruence).
  rewrite String.eqb_eq. split; congruence.
Qed.

Lemma opt_eqb_refl (x : option string) : opt_eqb x x = true.
Proof. now apply opt_eqb_eq. Qed.

Lemma opt_eqb_neq (x y : option string) : opt_eqb x y = false <-> x <> y.
Proof.
  rewrite <- opt_eqb_eq. destruct (opt_eqb x y); split; congruence.
Qed.

Lemma opt_eqb_sym (x y : option string) : opt_eqb x y = opt_eqb y x.
Proof.
  destruct (opt_eqb y x) eqn:E.
  - apply opt_eqb_eq in E. subst. apply opt_eqb_refl.
  - apply opt_eqb_neq. apply opt_eqb_neq in E. congruence.
Qed.

Lemma truthy_some (l : string) : truthy (Some l) = true <-> l <> "".
Proof.
  simpl. rewrite negb_true_iff. apply String.eqb_neq.
Qed.

Lemma str_in_In (x : string) (xs : list string) :
  str_in x xs = true <-> In x xs.
Proof.
  unfold str_in. rewrite existsb_exists. split.
  - intros [y [Hin E]]. apply String.eqb_eq in E. now subst.
  - intros H. exists x. split; auto. apply String.eqb_refl.
Qed.


Section Assignment.

Variable labels : Dict.t (list Z).

Abbreviation body := (set_probe_hole_body labels).

Lemma keys_clear_label label pm :
  Dict.keys (clear_label label pm) = Dict.keys pm.
Proof.
  unfold clear_label, Dict.keys. rewrite map_map. now apply map_ext.
Qed.

Lemma get_clear_label label pm q :
  Dict.get q (clear_label label pm)
  = match Dict.get q pm with
    | Some v => Some (if opt_eqb v label then None else v)
    | None => None
    end.
Proof.
  induction pm as [|[k v] pm IH]; simpl; auto.
  destruct (k =? q); auto.
Qed.

Lemma clear_label_absent label pm :
  existsb (opt_eqb label) (Dict.values pm) = false ->
  clear_label label pm = pm.
Proof.
  induction pm as [|[k v] pm IH]; simpl; auto.
  intros H. apply orb_false_iff in H. destruct H as [H1 H2].
  rewrite opt_eqb_sym, H1. simpl. f_equal. auto.
Qed.

(** A call [set_probe_hole(q, None)] on an assigned probe. *)
Lemma body_unassign rec (q l : string) (self : ImplantSVG) :
  str_in q probes = true ->
  Dict.get q (probe_memory self) = Some (Some l) ->
  l <> "" ->
  body rec q HNone self
  = (inr tt, mkImplantSVG (svg self) (Dict.set q None (probe_memory self))
                          (Dict.set l None (hole_memory self))).
Proof.
  intros Hq Hget Hl.
  unfold set_probe_hole_body. rewrite Hq. simpl.
  unfold bind, lift, probe_memory_get. simpl. rewrite Hget. simpl.
  apply String.eqb_neq in Hl. rewrite Hl. simpl.
  reflexivity.
Qed.


Lemma set_probe_hole_unassigns d : unassigns (set_probe_hole labels (S d)).
Proof. intros q l self. simpl. apply body_unassign. Qed.

(** The loop of lines 156-158, started anywhere in the key list. *)
Lemma displace_loop rec (l : string) :
  unassigns rec -> l <> "" ->
  forall post pre sv hm,
    NoDup (Dict.keys (pre ++ post)%list) ->
    Forall (fun k => str_in k probes = true) (Dict.keys post) ->
    for_each (Dict.keys post)
      (fun other_probe =>
         bind (probe_memory_get other_probe) (fun v =>
         when (opt_eqb v (Some l)) (rec other_probe HNone)))
      (mkImplantSVG sv (pre ++ post)%list hm)
    = (inr tt,
       mkImplantSVG sv (pre ++ clear_label (Some l) post)%list
         (if existsb (opt_eqb (Some l)) (Dict.values post)
          then Dict.set l None hm else hm)).
Proof.
  intros Hrec Hl.
  induction post as [|[k v] post IH]; intros pre sv hm Hnd Hks.
  - reflexivity.
  - simpl in Hks. inversion Hks as [|? ? Hk Hks']. subst.
    assert (Hpre : ~ In k (Dict.keys pre)).
    { unfold Dict.keys in *. rewrite map_app in Hnd. simpl in Hnd.
      apply NoDup_remove_2 in Hnd. intro H. apply Hnd.
      apply in_or_app. now left. }
    assert (Hnd' : NoDup (Dict.keys ((pre ++ [(k, v)]) ++ post)%list)).
    { now rewrite <- app_assoc. }
    assert (Hnd'' : forall w,
               NoDup (Dict.keys ((pre ++ [(k, w)]) ++ post)%list)).
    { intro w. unfold Dict.keys in *. rewrite !map_app in *. exact Hnd'. }
    cbn [Dict.keys map fst for_each].
    unfold bind at 1. unfold bind at 1.
    unfold probe_memory_get at 1. cbn [probe_memory].
    rewrite DictFacts.get_app_r by assumption.
    cbn [Dict.get]. rewrite String.eqb_refl.
    cbn [Dict.values map snd existsb clear_label fst].
    rewrite (opt_eqb_sym (Some l) v).
    destruct (opt_eqb v (Some l)) eqn:E; cbn [when orb].
    + apply opt_eqb_eq in E. subst v.
      rewrite (Hrec k l); cbn [probe_memory svg hole_memory]; auto.
      2:{ rewrite DictFacts.get_app_r by assumption.
          simpl. now rewrite String.eqb_refl. }
      rewrite DictFacts.set_app_r by assumption.
      cbn [Dict.set]. rewrite String.eqb_refl.
      specialize (IH (pre ++ [(k, None)])%list sv (Dict.set l None hm)
                     (Hnd'' None) Hks').
      rewrite <- app_assoc in IH. simpl in IH.
      unfold Dict.keys in IH. rewrite IH.
      rewrite DictFacts.set_set_same.
      rewrite <- app_assoc. simpl.
      now destruct (existsb (opt_eqb (Some l)) (Dict.values post)).
    + unfold ret.
      specialize (IH (pre ++ [(k, v)])%list sv hm Hnd' Hks').
      rewrite <- app_assoc in IH. simpl in IH.
      unfold Dict.keys in IH. rewrite IH.
      rewrite <- app_assoc. reflexivity.
Qed.

(** [set_probe_hole] in closed form. *)
Lemma body_assigned rec probe hole label cur self :
  unassigns rec ->
  NoDup (Dict.keys (probe_memory self)) ->
  Forall (fun k => str_in k probes = true) (Dict.keys (probe_memory self)) ->
  str_in probe probes = true ->
  label_of_hole labels hole = inr label ->
  Dict.get probe (probe_memory self) = Some cur ->
  body rec probe hole self = (inr tt, assigned probe label cur self).
Proof.
  intros Hrec Hnd Hks Hp Hlab Hget.
  destruct self as [sv pm hm]. cbn [probe_memory hole_memory svg] in *.
  unfold set_probe_hole_body. rewrite Hp. cbn [negb].
  unfold bind at 1. unfold lift. rewrite Hlab.
  unfold bind at 1. unfold probe_memory_get at 1. cbn [probe_memory].
  rewrite Hget. unfold assigned. cbn [probe_memory hole_memory svg].
  destruct (opt_eqb cur label) eqn:Ecl; [reflexivity|].
  unfold bind at 1.
  set (hm1 := match cur with
              | Some l => if truthy cur then Dict.set l None hm else hm
              | None => hm
              end).
  assert (E1 : when (truthy cur)
                 match cur with
                 | Some l => hole_memory_set l None
                 | None => ret tt
                 end (mkImplantSVG sv pm hm)
               = (inr tt, mkImplantSVG sv pm hm1)).
  { subst hm1. destruct cur as [c|]; simpl; [|reflexivity].
    destruct (c =? ""); reflexivity. }
  rewrite E1. clear E1.
  unfold bind at 1. unfold probe_memory_values at 1. cbn [probe_memory].
  unfold bind at 1.
  set (taken := truthy label && existsb (opt_eqb label) (Dict.values pm)).
  assert (E2 : when taken
                 (bind probe_memory_keys (fun ks =>
                  for_each ks (fun other_probe =>
                    bind (probe_memory_get other_probe) (fun v =>
                    when (opt_eqb v label) (rec other_probe HNone)))))
                 (mkImplantSVG sv pm hm1)
               = (inr tt,
                  mkImplantSVG sv
                    (if taken then clear_label label pm else pm)
                    (match label with
                     | Some l => if taken then Dict.set l None hm1 else hm1
                     | None => hm1
                     end))).
  { destruct taken eqn:Et; cbn [when].
    - subst taken. apply andb_true_iff in Et. destruct Et as [Ht Hex].
      destruct label as [l|]; [|discriminate].
      apply truthy_some in Ht.
      unfold bind at 1. unfold probe_memory_keys at 1. cbn [probe_memory].
      pose proof (displace_loop Hrec Ht pm [] sv hm1 Hnd Hks) as Hloop.
      cbn [app] in Hloop. rewrite Hloop.
      rewrite Hex. reflexivity.
    - unfold ret. destruct label; reflexivity. }
  rewrite E2. clear E2.
  unfold bind at 1. unfold probe_memory_set at 1.
  cbn [probe_memory hole_memory svg].
  destruct label as [l|]; cbn [when truthy].
  - destruct (negb (l =? "")); reflexivity.
  - reflexivity.
Qed.

(** The label an argument stands for is [None] or a member of [strings]. *)
Lemma label_of_hole_valid hole l :
  label_of_hole labels hole = inr (Some l) -> In l (strings labels).
Proof.
  destruct hole as [|i|s]; simpl.
  - discriminate.
  - destruct (negb _); [discriminate|].
    destruct (nth_error (strings labels) (Z.to_nat i)) eqn:E; [|discriminate].
    intros [= <-]. eapply nth_error_In; eauto.
  - destruct (str_in s (strings labels)) eqn:E.
    + intros [= <-]. now apply str_in_In.
    + destruct (lower s =? "none"); discriminate.
Qed.

End Assignment.

(** ** Labels end with a digit *)

Lemma ends_with_digit_nonempty s : ends_with_digit s = true -> s <> "".
Proof. destruct s; simpl; congruence. Qed.

Lemma ends_with_digit_cons c s :
  ends_with_digit s = true -> ends_with_digit (String c s) = true.
Proof. destruct s; simpl; auto. discriminate. Qed.

Lemma ends_with_digit_app k s :
  ends_with_digit s = true -> ends_with_digit (k ++ s) = true.
Proof.
  intros H. induction k as [|c k IH]; simpl; auto.
  change (ends_with_digit (String c (k ++ s)) = true).
  now apply ends_with_digit_cons.
Qed.

Lemma string_of_uint_digit d :
  d <> Decimal.Nil -> ends_with_digit (NilEmpty.string_of_uint d) = true.
Proof.
  induction d as [|d IH|d IH|d IH|d IH|d IH|d IH|d IH|d IH|d IH|d IH];
    intros Hd; try congruence;
    (destruct d;
     [ reflexivity
     | cbn [NilEmpty.string_of_uint]; apply ends_with_digit_cons;
       apply IH; discriminate .. ]).
Qed.

Lemma str_of_int_digit i : ends_with_digit (str_of_int i) = true.
Proof.
  assert (Hu : forall d, ends_with_digit (NilZero.string_of_uint d) = true).
  { intros d. destruct d; try reflexivity;
      apply string_of_uint_digit; discriminate. }
  unfold str_of_int, NilZero.string_of_int.
  destruct (Z.to_int i); auto.
  now apply ends_with_digit_cons.
Qed.

Lemma strings_digit labels l :
  In l (strings labels) -> ends_with_digit l = true.
Proof.
  unfold strings. rewrite in_flat_map. intros [[k v] [_ Hin]].
  apply in_map_iff in Hin. destruct Hin as [i [<- _]].
  apply ends_with_digit_app, str_of_int_digit.
Qed.

Lemma strings_nonempty labels l : In l (strings labels) -> l <> "".
Proof. intros H. now apply ends_with_digit_nonempty, strings_digit with labels. Qed.

Lemma is_digit_lower c : is_digit (lower_ascii c) = is_digit c.
Proof. destruct c as [[] [] [] [] [] [] [] []]; reflexivity. Qed.

Lemma ends_with_digit_lower s : ends_with_digit (lower s) = ends_with_digit s.
Proof.
  induction s as [|c s IH]; auto.
  destruct s as [|c' s]; simpl in *.
  - apply is_digit_lower.
  - exact IH.
Qed.

(** No label lowers to ["none"]. *)
Lemma strings_not_none labels s :
  lower s = "none" -> str_in s (strings labels) = false.
Proof.
  intros H. destruct (str_in s (strings labels)) eqn:E; auto.
  apply str_in_In, strings_digit in E.
  rewrite <- ends_with_digit_lower, H in E. discriminate.
Qed.

(** ** The depth of the recursion *)

Section Depth.

Variable labels : Dict.t (list Z).

Lemma for_each_ext {A} (xs : list A) (f g : A -> M unit) self :
  (forall x s, f x s = g x s) ->
  for_each xs f self = for_each xs g self.
Proof.
  intros H. revert self. induction xs as [|x xs IH]; intros self; auto.
  simpl. unfold bind. rewrite H. destruct (g x self) as [[e|u] s']; auto.
Qed.

Lemma for_each_mono {A} (xs : list A) (f g : A -> M unit) self self' :
  (forall x s s', f x s = (inr tt, s') -> g x s = (inr tt, s')) ->
  for_each xs f self = (inr tt, self') ->
  for_each xs g self = (inr tt, self').
Proof.
  intros H. revert self. induction xs as [|x xs IH]; intros self; auto.
  simpl. unfold bind. destruct (f x self) as [[e|[]] s1] eqn:E.
  - discriminate.
  - rewrite (H _ _ _ E). apply IH.
Qed.

Lemma bind_ext_r {A B} (c : M A) (k1 k2 : A -> M B) self :
  (forall a s, k1 a s = k2 a s) -> bind c k1 self = bind c k2 self.
Proof.
  intros H. unfold bind. destruct (c self) as [[e|a] s']; auto.
Qed.

Lemma bind_ext_l {A B} (c1 c2 : M A) (k : A -> M B) self :
  (forall s, c1 s = c2 s) -> bind c1 k self = bind c2 k self.
Proof. intros H. unfold bind. now rewrite H. Qed.

Lemma bind_mono_r {A B} (c : M A) (k1 k2 : A -> M B) self (b : B) self' :
  (forall a s, k1 a s = (inr b, self') -> k2 a s = (inr b, self')) ->
  bind c k1 self = (inr b, self') -> bind c k2 self = (inr b, self').
Proof.
  intros H. unfold bind. destruct (c self) as [[e|a] s']; auto.
Qed.

Lemma bind_mono_l {A B} (c1 c2 : M A) (k : A -> M B) self (b : B) self' :
  (forall a s s', c1 s = (inr a, s') -> c2 s = (inr a, s')) ->
  bind c1 k self = (inr b, self') -> bind c2 k self = (inr b, self').
Proof.
  intros H. unfold bind. destruct (c1 self) as [[e|a] s'] eqn:E.
  - discriminate.
  - now rewrite (H _ _ _ E).
Qed.

(** The body calls the method back on [None] only. *)
Lemma body_ext rec1 rec2 probe hole self :
  (forall q s, rec1 q HNone s = rec2 q HNone s) ->
  set_probe_hole_body labels rec1 probe hole self
  = set_probe_hole_body labels rec2 probe hole self.
Proof.
  intros H. unfold set_probe_hole_body.
  destruct (negb (str_in probe probes)); auto.
  apply bind_ext_r. intros label s1.
  apply bind_ext_r. intros cur s2.
  destruct (opt_eqb cur label); auto.
  apply bind_ext_r. intros _ s3.
  apply bind_ext_r. intros vals s4.
  apply bind_ext_l. intros s5.
  destruct (truthy label && existsb (opt_eqb label) vals); auto.
  cbn [when]. apply bind_ext_r. intros ks s6.
  apply for_each_ext. intros x s7.
  apply bind_ext_r. intros v s8.
  destruct (opt_eqb v label); cbn [when]; auto.
Qed.

Lemma body_mono rec1 rec2 probe hole self self' :
  (forall q s s', rec1 q HNone s = (inr tt, s') ->
                  rec2 q HNone s = (inr tt, s')) ->
  set_probe_hole_body labels rec1 probe hole self = (inr tt, self') ->
  set_probe_hole_body labels rec2 probe hole self = (inr tt, self').
Proof.
  intros H. unfold set_probe_hole_body.
  destruct (negb (str_in probe probes)); auto.
  apply bind_mono_r. intros label s1.
  apply bind_mono_r. intros cur s2.
  destruct (opt_eqb cur label); auto.
  apply bind_mono_r. intros _ s3.
  apply bind_mono_r. intros vals s4.
  apply bind_mono_l. intros [] s5 s5'.
  destruct (truthy label && existsb (opt_eqb label) vals); auto.
  cbn [when]. apply bind_mono_r. intros ks s6.
  apply for_each_mono. intros x s7 s7'.
  apply bind_mono_r. intros v s8.
  destruct (opt_eqb v label); cbn [when]; auto.
Qed.

(** A call on [None] never calls back. *)
Lemma set_probe_hole_None_depth d q self :
  set_probe_hole labels (S d) q HNone self
  = set_probe_hole labels 1 q HNone self.
Proof.
  cbn [set_probe_hole]. unfold set_probe_hole_body.
  destruct (negb (str_in q probes)); reflexivity.
Qed.

(** Two frames are all that [set_probe_hole] ever uses. *)
Lemma set_probe_hole_depth d probe hole self :
  set_probe_hole labels (S (S d)) probe hole self
  = set_probe_hole labels 2 probe hole self.
Proof.
  change (set_probe_hole_body labels (set_probe_hole labels (S d)) probe hole self
          = set_probe_hole_body labels (set_probe_hole labels 1) probe hole self).
  apply body_ext. intros q s. apply set_probe_hole_None_depth.
Qed.

Lemma set_probe_hole_mono d probe hole self self' :
  set_probe_hole labels d probe hole self = (inr tt, self') ->
  set_probe_hole labels (S (S d)) probe hole self = (inr tt, self').
Proof.
  destruct d as [|d]; [discriminate|].
  intros H. rewrite set_probe_hole_depth.
  destruct d as [|d].
  - revert H. apply body_mono. discriminate.
  - now rewrite set_probe_hole_depth in H.
Qed.

End Depth.

(** ** Reachable instances are well formed *)

Section Invariant.

Variable labels : Dict.t (list Z).

Lemma assigned_some p l cur self :
  l <> "" -> cur <> Some l ->
  assigned p (Some l) cur self
  = mkImplantSVG (svg self)
      (Dict.set p (Some l) (clear_label (Some l) (probe_memory self)))
      (Dict.set l (Some p)
         match cur with
         | Some c => if truthy cur then Dict.set c None (hole_memory self)
                     else hole_memory self
         | None => hole_memory self
         end).
Proof.
  intros Hl Hc. unfold assigned.
  apply opt_eqb_neq in Hc. rewrite Hc.
  apply truthy_some in Hl. rewrite Hl. cbn [andb].
  destruct (existsb (opt_eqb (Some l)) (Dict.values (probe_memory self)))
    eqn:E.
  - now rewrite DictFacts.set_set_same.
  - now rewrite clear_label_absent.
Qed.

Lemma assigned_none p c self :
  c <> "" ->
  assigned p None (Some c) self
  = mkImplantSVG (svg self) (Dict.set p None (probe_memory self))
                 (Dict.set c None (hole_memory self)).
Proof.
  intros Hc. unfold assigned. cbn [opt_eqb truthy andb].
  apply String.eqb_neq in Hc. now rewrite Hc.
Qed.

Lemma init_probe_memory_none svg0 p v :
  Dict.get p (probe_memory (init labels svg0)) = Some v -> v = None.
Proof.
  cbn. repeat (match goal with
               | |- context [if ?b then _ else _] => destruct b
               end; [congruence|]).
  discriminate.
Qed.

Lemma init_hole_memory_none svg0 l v :
  Dict.get l (hole_memory (init labels svg0)) = Some v -> v = None.
Proof.
  cbn [init hole_memory]. unfold Dict.of_pairs.
  apply DictFacts.get_fold_set_const.
  - intros [k w] Hin. apply in_combine_r in Hin.
    now apply repeat_spec in Hin.
  - discriminate.
Qed.

Lemma in_keys_fold_set {V} (ps : list (string * V)) (d : Dict.t V) k :
  In k (Dict.keys d) \/ In k (map fst ps) ->
  In k (Dict.keys (fold_left (fun d kv => Dict.set (fst kv) (snd kv) d) ps d)).
Proof.
  revert d. induction ps as [|[k' v'] ps IH]; intros d H; simpl in *.
  - tauto.
  - apply IH.
    destruct (in_dec string_dec k' (Dict.keys d)) as [Hin|Hin].
    + rewrite DictFacts.keys_set_in by assumption.
      destruct H as [H|[<-|H]]; auto.
    + rewrite DictFacts.keys_set_new by assumption.
      rewrite in_app_iff. simpl. tauto.
Qed.

Lemma map_fst_combine_repeat {A B} (l : list A) (b : B) :
  map fst (combine l (repeat b (List.length l))) = l.
Proof. induction l; simpl; congruence. Qed.

Lemma strings_in_holes self l :
  well_formed labels self ->
  In l (strings labels) -> In l (Dict.keys (hole_memory self)).
Proof.
  intros Hwf Hin. rewrite (wf_holes Hwf). cbn [init hole_memory].
  apply in_keys_fold_set. right.
  now rewrite map_fst_combine_repeat.
Qed.

Lemma init_well_formed svg0 : well_formed labels (init labels svg0).
Proof.
  constructor.
  - reflexivity.
  - reflexivity.
  - intros p l H. apply init_probe_memory_none in H. discriminate.
  - intros l p. split; intros H.
    + apply init_hole_memory_none in H. discriminate.
    + apply init_probe_memory_none in H. discriminate.
Qed.

Lemma well_formed_injective self p1 p2 l :
  well_formed labels self ->
  Dict.get p1 (probe_memory self) = Some (Some l) ->
  Dict.get p2 (probe_memory self) = Some (Some l) ->
  p1 = p2.
Proof.
  intros Hwf H1 H2.
  apply (wf_inverse Hwf) in H1. apply (wf_inverse Hwf) in H2. congruence.
Qed.

Lemma well_formed_consistent self :
  well_formed labels self -> consistent self.
Proof.
  intros Hwf. split.
  - apply (wf_inverse Hwf).
  - intros p1 p2 l. now apply well_formed_injective.
Qed.

Lemma assigned_well_formed p label cur self :
  well_formed labels self ->
  Dict.get p (probe_memory self) = Some cur ->
  (forall l, label = Some l -> In l (strings labels)) ->
  well_formed labels (assigned p label cur self).
Proof.
  intros Hwf Hcur Hlab.
  destruct (opt_eqb cur label) eqn:Ecl.
  { unfold assigned. now rewrite Ecl. }
  apply opt_eqb_neq in Ecl.
  assert (Hp : In p (Dict.keys (probe_memory self)))
    by (eapply DictFacts.get_some_in_keys; eauto).
  assert (Hc : forall c, cur = Some c ->
                         c <> "" /\ In c (Dict.keys (hole_memory self))).
  { intros c ->. apply (wf_valid Hwf) in Hcur. split.
    - now apply strings_nonempty with labels.
    - now apply strings_in_holes. }
  destruct label as [l|].
  - assert (Hl : In l (strings labels)) by auto.
    assert (Hl' : l <> "") by now apply strings_nonempty with labels.
    rewrite assigned_some by congruence.
    assert (Hhm1 : forall l' q,
               Dict.get l' match cur with
                           | Some c => if truthy cur
                                       then Dict.set c None (hole_memory self)
                                       else hole_memory self
                           | None => hole_memory self
                           end = Some (Some q)
               <-> (Dict.get q (probe_memory self) = Some (Some l')
                    /\ q <> p)).
    { intros l' q. destruct cur as [c|].
      - destruct (Hc c eq_refl) as [Hc1 Hc2].
        apply truthy_some in Hc1. rewrite Hc1.
        rewrite DictFacts.get_set.
        destruct (String.eqb_spec c l') as [->|Hne].
        + split; [discriminate|]. intros [H1 H2]. exfalso. apply H2.
          eapply well_formed_injective; eauto.
        + rewrite (wf_inverse Hwf). split; [|tauto].
          intros H. split; auto. intros ->. congruence.
      - rewrite (wf_inverse Hwf). split; [|tauto].
        intros H. split; auto. intros ->. congruence. }
    constructor; cbn [probe_memory hole_memory svg].
    + rewrite DictFacts.keys_set_in; rewrite keys_clear_label; auto.
      apply (wf_probes Hwf).
    + rewrite DictFacts.keys_set_in.
      * destruct cur as [c|]; [|apply (wf_holes Hwf)].
        destruct (Hc c eq_refl) as [Hc1 Hc2].
        apply truthy_some in Hc1. rewrite Hc1.
        rewrite DictFacts.keys_set_in; auto. apply (wf_holes Hwf).
      * destruct cur as [c|]; [|now apply strings_in_holes].
        destruct (Hc c eq_refl) as [Hc1 Hc2].
        apply truthy_some in Hc1. rewrite Hc1.
        rewrite DictFacts.keys_set_in; auto. now apply strings_in_holes.
    + intros q l'. rewrite DictFacts.get_set, get_clear_label.
      destruct (String.eqb_spec p q) as [->|Hne].
      * intros [= <-]. assumption.
      * destruct (Dict.get q (probe_memory self)) as [v|] eqn:Eq;
          [|discriminate].
        destruct (opt_eqb v (Some l)); [discriminate|].
        intros [= ->]. eapply (wf_valid Hwf); eauto.
    + intros l' q. rewrite !DictFacts.get_set, get_clear_label.
      destruct (String.eqb_spec l l') as [<-|Hll];
        destruct (String.eqb_spec p q) as [<-|Hpq].
      * tauto.
      * split; [congruence|].
        destruct (Dict.get q (probe_memory self)) as [v|]; [|discriminate].
        destruct (opt_eqb v (Some l)) eqn:E; [discriminate|].
        intros [= ->]. rewrite opt_eqb_refl in E. discriminate.
      * rewrite Hhm1. split; [tauto|congruence].
      * rewrite Hhm1.
        destruct (Dict.get q (probe_memory self)) as [v|];
          [|split; [tauto|discriminate]].
        destruct (opt_eqb v (Some l)) eqn:E.
        -- apply opt_eqb_eq in E. subst v.
           split; [intros [H _]|]; congruence.
        -- split; [tauto|]. intros H. split; auto.
  - destruct cur as [c|]; [|congruence].
    destruct (Hc c eq_refl) as [Hc1 Hc2].
    rewrite assigned_none by assumption.
    constructor; cbn [probe_memory hole_memory svg].
    + rewrite DictFacts.keys_set_in; auto. apply (wf_probes Hwf).
    + rewrite DictFacts.keys_set_in; auto. apply (wf_holes Hwf).
    + intros q l'. rewrite DictFacts.get_set.
      destruct (String.eqb_spec p q) as [->|Hne]; [discriminate|].
      apply (wf_valid Hwf).
    + intros l' q. rewrite !DictFacts.get_set.
      destruct (String.eqb_spec c l') as [<-|Hcl];
        destruct (String.eqb_spec p q) as [<-|Hpq].
      * split; discriminate.
      * split; [discriminate|]. intros H. exfalso. apply Hpq.
        eapply well_formed_injective; eauto.
      * rewrite (wf_inverse Hwf). split; [congruence|discriminate].
      * apply (wf_inverse Hwf).
Qed.

(** A successful call leaves the instance that [assigned] describes. *)
Lemma set_probe_hole_assigned d p h self self' :
  well_formed labels self ->
  set_probe_hole labels d p h self = (inr tt, self') ->
  exists label cur,
    str_in p probes = true
    /\ label_of_hole labels h = inr label
    /\ Dict.get p (probe_memory self) = Some cur
    /\ self' = assigned p label cur self.
Proof.
  intros Hwf H. apply set_probe_hole_mono in H.
  cbn [set_probe_hole] in H.
  destruct (str_in p probes) eqn:Ep.
  2:{ unfold set_probe_hole_body in H. rewrite Ep in H. discriminate. }
  destruct (label_of_hole labels h) as [e|label] eqn:El.
  { unfold set_probe_hole_body in H. rewrite Ep in H. cbn [negb] in H.
    unfold bind at 1 in H. unfold lift in H. rewrite El in H.
    discriminate. }
  assert (Hin : In p (Dict.keys (probe_memory self))).
  { rewrite (wf_probes Hwf). now apply str_in_In. }
  apply DictFacts.in_keys_get in Hin. destruct Hin as [cur Hcur].
  exists label, cur. repeat split; auto.
  erewrite body_assigned in H; eauto.
  - congruence.
  - apply set_probe_hole_unassigns.
  - rewrite (wf_probes Hwf). repeat constructor; simpl; intuition discriminate.
  - rewrite (wf_probes Hwf). apply Forall_forall. intros k Hk.
    now apply str_in_In.
Qed.

Lemma reachable_well_formed self :
  reachable labels self -> well_formed labels self.
Proof.
  induction 1 as [svg0|self depth probe hole self' _ IH Hstep].
  - apply init_well_formed.
  - destruct (set_probe_hole_assigned _ _ _ IH Hstep)
      as (label & cur & _ & Hlab & Hcur & ->).
    apply assigned_well_formed; auto.
    intros l ->. eapply label_of_hole_valid; eauto.
Qed.

End Invariant.

(** ** The assignment store: consistency, assignment, displacement *)

Lemma A_in_B2_reachable : reachable DR1_labels A_in_B2.
Proof.
  eapply reachable_assign with (depth := 2%nat) (probe := "A") (hole := HStr "B2").
  - apply reachable_init.
  - reflexivity.
Qed.

Section Store.

Variable labels : Dict.t (list Z).

(** With two frames a call with a valid probe and a valid argument
    succeeds. *)
Lemma set_probe_hole_total d p h label self :
  well_formed labels self ->
  In p probes ->
  label_of_hole labels h = inr label ->
  exists cur,
    Dict.get p (probe_memory self) = Some cur
    /\ set_probe_hole labels (S (S d)) p h self
       = (inr tt, assigned p label cur self).
Proof.
  intros Hwf Hp Hlab.
  assert (Hin : In p (Dict.keys (probe_memory self)))
    by now rewrite (wf_probes Hwf).
  apply DictFacts.in_keys_get in Hin. destruct Hin as [cur Hcur].
  exists cur. split; auto.
  cbn [set_probe_hole]. apply body_assigned; auto.
  - apply set_probe_hole_unassigns.
  - rewrite (wf_probes Hwf). repeat constructor; simpl; intuition discriminate.
  - rewrite (wf_probes Hwf). apply Forall_forall. intros k Hk.
    now apply str_in_In.
  - now apply str_in_In.
Qed.

Lemma label_of_hole_str l :
  In l (strings labels) -> label_of_hole labels (HStr l) = inr (Some l).
Proof. intros H. simpl. apply str_in_In in H. now rewrite H. Qed.

Lemma assigned_post p l cur self :
  well_formed labels self ->
  Dict.get p (probe_memory self) = Some cur ->
  In l (strings labels) ->
  Dict.get p (probe_memory (assigned p (Some l) cur self)) = Some (Some l)
  /\ Dict.get l (hole_memory (assigned p (Some l) cur self)) = Some (Some p).
Proof.
  intros Hwf Hcur Hl.
  destruct (opt_eqb cur (Some l)) eqn:E.
  - unfold assigned. rewrite E. apply opt_eqb_eq in E. subst cur.
    split; auto. now apply (wf_inverse Hwf).
  - apply opt_eqb_neq in E. rewrite assigned_some; auto.
    + cbn [probe_memory hole_memory]. now rewrite !DictFacts.get_set_same.
    + now apply strings_nonempty with labels.
Qed.

End Store.

(** C1. Every instance reached from a fresh one, all probes unassigned, by
    successful calls of [set_probe_hole] is consistent: [hole_memory] maps a
    label to a probe exactly when [probe_memory] maps that probe to that
    label, and no two probes hold the same label. *)
Theorem C1_reachable_consistent (labels : Dict.t (list Z)) (self : ImplantSVG) :
  reachable labels self -> consistent self.
Proof.
  intros H. now apply well_formed_consistent with labels, reachable_well_formed.
Qed.

Lemma C1_reachable_consistent_witness :
  reachable DR1_labels A_in_B2 /\ consistent A_in_B2.
Proof.
  split.
  - exact A_in_B2_reachable.
  - exact (C1_reachable_consistent A_in_B2_reachable).
Defined.

(** C2. For a valid probe [p] and a valid label [l], a call
    [set_probe_hole(p, l)] on a reachable instance succeeds (two frames are
    enough), and right after it [probe_memory[p]] is [l] and
    [hole_memory[l]] is [p]; a success at any other depth leaves the same
    instance. *)
Theorem C2_assign_then_lookup (labels : Dict.t (list Z)) (self : ImplantSVG)
        (p l : string) :
  reachable labels self ->
  In p probes ->
  In l (strings labels) ->
  exists self',
    (forall d, set_probe_hole labels (S (S d)) p (HStr l) self = (inr tt, self'))
    /\ (forall d s, set_probe_hole labels d p (HStr l) self = (inr tt, s) ->
                    s = self')
    /\ Dict.get p (probe_memory self') = Some (Some l)
    /\ Dict.get l (hole_memory self') = Some (Some p).
Proof.
  intros Hr Hp Hl. apply reachable_well_formed in Hr.
  destruct (set_probe_hole_total 0 (HStr l) Hr Hp (@label_of_hole_str labels l Hl))
    as [cur [Hcur Hrun]].
  exists (assigned p (Some l) cur self).
  assert (Hall : forall d, set_probe_hole labels (S (S d)) p (HStr l) self
                           = (inr tt, assigned p (Some l) cur self)).
  { intros d. now rewrite set_probe_hole_depth. }
  split; [exact Hall|]. split.
  - intros d s Hs. apply set_probe_hole_mono in Hs.
    rewrite Hall in Hs. congruence.
  - now apply assigned_post with labels.
Qed.

Lemma C2_assign_then_lookup_witness :
  exists self',
    (forall d, set_probe_hole DR1_labels (S (S d)) "C" (HStr "B2") A_in_B2
               = (inr tt, self'))
    /\ (forall d s, set_probe_hole DR1_labels d "C" (HStr "B2") A_in_B2
                    = (inr tt, s) -> s = self')
    /\ Dict.get "C" (probe_memory self') = Some (Some "B2")
    /\ Dict.get "B2" (hole_memory self') = Some (Some "C").
Proof.
  apply (@C2_assign_then_lookup DR1_labels A_in_B2 "C" "B2").
  - exact A_in_B2_reachable.
  - simpl; tauto.
  - vm_compute; tauto.
Defined.

(** C3. For two distinct valid probes [p1], [p2] and a valid label [l],
    [set_probe_hole(p1, l)] then [set_probe_hole(p2, l)] on a reachable
    instance both succeed within two frames; afterwards [p1] holds no
    label, [l] is held by [p2], and every probe other than [p1] and [p2]
    holds what it held before the second call: one probe is displaced, and
    the displacement calls nothing further. *)
Theorem C3_displacement (labels : Dict.t (list Z)) (self : ImplantSVG)
        (p1 p2 l : string) :
  reachable labels self ->
  In p1 probes -> In p2 probes -> p1 <> p2 ->
  In l (strings labels) ->
  exists s1 s2,
    (forall d, set_probe_hole labels (S (S d)) p1 (HStr l) self = (inr tt, s1))
    /\ (forall d, set_probe_hole labels (S (S d)) p2 (HStr l) s1 = (inr tt, s2))
    /\ Dict.get p1 (probe_memory s2) = Some None
    /\ Dict.get p2 (probe_memory s2) = Some (Some l)
    /\ Dict.get l (hole_memory s2) = Some (Some p2)
    /\ (forall q, q <> p1 -> q <> p2 ->
                  Dict.get q (probe_memory s2) = Dict.get q (probe_memory s1)).
Proof.
  intros Hr Hp1 Hp2 Hne Hl. apply reachable_well_formed in Hr.
  pose proof (@label_of_hole_str labels l Hl) as Hlab.
  destruct (set_probe_hole_total 0 (HStr l) Hr Hp1 Hlab) as [c1 [Hc1 Hrun1]].
  set (s1 := assigned p1 (Some l) c1 self) in *.
  assert (Hwf1 : well_formed labels s1).
  { apply assigned_well_formed; auto. now intros ? [= <-]. }
  destruct (@assigned_post labels p1 l c1 self Hr Hc1 Hl) as [Hp1l _]. fold s1 in Hp1l.
  destruct (set_probe_hole_total 0 (HStr l) Hwf1 Hp2 Hlab) as [c2 [Hc2 Hrun2]].
  assert (Hc2l : c2 <> Some l).
  { intros ->. apply Hne. eapply well_formed_injective; eauto. }
  exists s1, (assigned p2 (Some l) c2 s1).
  split; [intros d; now rewrite set_probe_hole_depth|].
  split; [intros d; now rewrite set_probe_hole_depth|].
  destruct (@assigned_post labels p2 l c2 s1 Hwf1 Hc2 Hl) as [Hp2l Hlp2].
  split; [|split; [exact Hp2l|split; [exact Hlp2|]]].
  - rewrite assigned_some; auto; [|now apply strings_nonempty with labels].
    cbn [probe_memory]. rewrite DictFacts.get_set_other by congruence.
    rewrite get_clear_label, Hp1l. now rewrite opt_eqb_refl.
  - intros q Hq1 Hq2.
    rewrite assigned_some; auto; [|now apply strings_nonempty with labels].
    cbn [probe_memory]. rewrite DictFacts.get_set_other by congruence.
    rewrite get_clear_label.
    destruct (Dict.get q (probe_memory s1)) as [v|] eqn:Eq; auto.
    destruct (opt_eqb v (Some l)) eqn:Ev; auto.
    apply opt_eqb_eq in Ev. subst v. exfalso. apply Hq1.
    eapply well_formed_injective; eauto.
Qed.

Lemma C3_displacement_witness :
  exists s1 s2,
    (forall d, set_probe_hole DR1_labels (S (S d)) "A" (HStr "B2")
                 (init DR1_labels "") = (inr tt, s1))
    /\ (forall d, set_probe_hole DR1_labels (S (S d)) "C" (HStr "B2") s1
                  = (inr tt, s2))
    /\ Dict.get "A" (probe_memory s2) = Some None
    /\ Dict.get "C" (probe_memory s2) = Some (Some "B2")
    /\ Dict.get "B2" (hole_memory s2) = Some (Some "C")
    /\ (forall q, q <> "A" -> q <> "C" ->
                  Dict.get q (probe_memory s2) = Dict.get q (probe_memory s1)).
Proof.
  apply (@C3_displacement DR1_labels (init DR1_labels "") "A" "C" "B2").
  - apply reachable_init.
  - simpl; tauto.
  - simpl; tauto.
  - discriminate.
  - vm_compute; tauto.
Defined.

(** ** The label space *)

(** C7 (as stated, refuted). On the groups [{A:[1,2,3], B:[1,2,3,4]}] the
    label at index 5 is ["B3"], not ["B2"]: indices count from 0. *)
Lemma C7_label_at_5_is_not_B2 :
  index_to_label AB_labels (Some 5%Z) = inr (Some "B3")
  /\ index_to_label AB_labels (Some 5%Z) <> inr (Some "B2").
Proof. split; [reflexivity|discriminate]. Qed.

(** C7 (amended). On the groups [{A:[1,2,3], B:[1,2,3,4]}] the labels are
    A1, A2, A3, B1, B2, B3, B4 in this order; the index of ["B2"] is 4, that
    is, [index_to_label] gives ["B2"] at 4 and at no other index; and at 5
    it gives ["B3"]. *)
Theorem C7_AB_labels :
  strings AB_labels = ["A1"; "A2"; "A3"; "B1"; "B2"; "B3"; "B4"]
  /\ index_to_label AB_labels (Some 4%Z) = inr (Some "B2")
  /\ (forall i : Z, index_to_label AB_labels (Some i) = inr (Some "B2")
                    <-> i = 4%Z)
  /\ index_to_label AB_labels (Some 5%Z) = inr (Some "B3").
Proof.
  split; [reflexivity|]. split; [reflexivity|]. split; [|reflexivity].
  intros i. split; [|intros ->; reflexivity].
  unfold index_to_label.
  change (List.length (strings AB_labels)) with 7%nat.
  destruct ((0 <=? i)%Z && (i <? Z.of_nat 7)%Z) eqn:E; [|discriminate].
  apply andb_true_iff in E. destruct E as [E1 E2].
  apply Z.leb_le in E1. apply Z.ltb_lt in E2.
  assert (H : (i = 0 \/ i = 1 \/ i = 2 \/ i = 3 \/ i = 4 \/ i = 5 \/ i = 6)%Z)
    by lia.
  destruct H as [->|[->|[->|[->|[->|[->| ->]]]]]];
    intros H; vm_compute in H; congruence.
Qed.

Lemma index_to_label_out_of_range (labels : Dict.t (list Z)) (i : Z) :
  (i < 0 \/ Z.of_nat (List.length (strings labels)) <= i)%Z ->
  index_to_label labels (Some i) = inl (ValueError index_must_be_in_range).
Proof.
  intros Hi. unfold index_to_label.
  destruct ((0 <=? i)%Z && (i <? Z.of_nat (List.length (strings labels)))%Z)
    eqn:E; auto.
  apply andb_true_iff in E. destruct E as [E1 E2].
  apply Z.leb_le in E1. apply Z.ltb_lt in E2. lia.
Qed.

Lemma set_probe_hole_out_of_range (labels : Dict.t (list Z)) (i : Z) d p self :
  (i < 0 \/ Z.of_nat (List.length (strings labels)) <= i)%Z ->
  In p probes ->
  set_probe_hole labels (S d) p (HInt i) self
  = (inl (ValueError index_must_be_in_range), self).
Proof.
  intros Hi Hp. apply str_in_In in Hp.
  cbn [set_probe_hole]. unfold set_probe_hole_body. rewrite Hp.
  cbn [negb]. unfold bind at 1. unfold lift. cbn [label_of_hole].
  now rewrite index_to_label_out_of_range.
Qed.

(** C8. For every integer outside [0, len(strings)), [index_to_label]
    raises its [ValueError]; so does [set_probe_hole] called with a valid
    probe and such an integer, and it leaves the instance as it was.  On a
    label space of at most 99 labels, the one of the class among them, this
    is the case of [set_probe_hole("A", 99)]. *)
Theorem C8_index_out_of_range (labels : Dict.t (list Z)) (i : Z) :
  (i < 0 \/ Z.of_nat (List.length (strings labels)) <= i)%Z ->
  index_to_label labels (Some i) = inl (ValueError index_must_be_in_range)
  /\ (forall d p self,
         In p probes ->
         set_probe_hole labels (S d) p (HInt i) self
         = (inl (ValueError index_must_be_in_range), self))
  /\ ((Z.of_nat (List.length (strings labels)) <= 99)%Z ->
      forall d self,
        set_probe_hole labels (S d) "A" (HInt 99) self
        = (inl (ValueError index_must_be_in_range), self)).
Proof.
  intros Hi. split; [|split].
  - now apply index_to_label_out_of_range.
  - intros d p self Hp. now apply set_probe_hole_out_of_range.
  - intros H99 d self. apply set_probe_hole_out_of_range; [now right|].
    simpl. tauto.
Qed.

Lemma C8_index_out_of_range_witness :
  index_to_label DR1_labels (Some (-1)%Z)
  = inl (ValueError index_must_be_in_range)
  /\ (forall d p self,
         In p probes ->
         set_probe_hole DR1_labels (S d) p (HInt (-1)) self
         = (inl (ValueError index_must_be_in_range), self))
  /\ ((Z.of_nat (List.length (strings DR1_labels)) <= 99)%Z ->
      forall d self,
        set_probe_hole DR1_labels (S d) "A" (HInt 99) self
        = (inl (ValueError index_must_be_in_range), self)).
Proof.
  apply (@C8_index_out_of_range DR1_labels (-1)%Z).
  left. reflexivity.
Defined.

(** ** Idempotence and the spelling of None *)

(** C9. When a valid probe [p] already holds [v], a valid label or [None],
    [set_probe_hole(p, v)] returns at once: the call succeeds and the whole
    instance, [probe_memory] and [hole_memory], is what it was. *)
Theorem C9_assign_idempotent (labels : Dict.t (list Z)) (self : ImplantSVG)
        (p : string) (v : option string) (d : nat) :
  In p probes ->
  (forall l, v = Some l -> In l (strings labels)) ->
  Dict.get p (probe_memory self) = Some v ->
  set_probe_hole labels (S d) p (hole_of_label v) self = (inr tt, self).
Proof.
  intros Hp Hv Hget. apply str_in_In in Hp.
  assert (Hlab : label_of_hole labels (hole_of_label v) = inr v).
  { destruct v as [l|]; [|reflexivity].
    apply label_of_hole_str. now apply Hv. }
  cbn [set_probe_hole]. unfold set_probe_hole_body. rewrite Hp. cbn [negb].
  unfold bind at 1. unfold lift. rewrite Hlab.
  unfold bind at 1. unfold probe_memory_get at 1. rewrite Hget.
  now rewrite opt_eqb_refl.
Qed.

Lemma C9_assign_idempotent_witness :
  set_probe_hole DR1_labels 1 "A" (hole_of_label (Some "B2")) A_in_B2
  = (inr tt, A_in_B2).
Proof.
  apply (@C9_assign_idempotent DR1_labels A_in_B2 "A" (Some "B2") 0).
  - simpl; tauto.
  - intros l [= <-]. vm_compute; tauto.
  - reflexivity.
Defined.

(** C10. For a valid probe [p] and a string [s] whose lower-case form is
    ["none"], [s] is not a label, and [set_probe_hole(p, s)] does exactly
    what [set_probe_hole(p, None)] does; on a reachable instance it
    succeeds and leaves [p] without a label. *)
Theorem C10_none_spelled_out (labels : Dict.t (list Z)) (self : ImplantSVG)
        (p s : string) (d : nat) :
  In p probes ->
  lower s = "none" ->
  reachable labels self ->
  ~ In s (strings labels)
  /\ set_probe_hole labels (S d) p (HStr s) self
     = set_probe_hole labels (S d) p HNone self
  /\ exists self',
       set_probe_hole labels (S d) p (HStr s) self = (inr tt, self')
       /\ Dict.get p (probe_memory self') = Some None.
Proof.
  intros Hp Hs Hr.
  pose proof (strings_not_none labels s Hs) as Hnot.
  assert (Hlab : label_of_hole labels (HStr s) = inr None).
  { cbn [label_of_hole]. rewrite Hnot, Hs. reflexivity. }
  assert (Heq : set_probe_hole labels (S d) p (HStr s) self
                = set_probe_hole labels (S d) p HNone self).
  { cbn [set_probe_hole]. unfold set_probe_hole_body.
    destruct (negb (str_in p probes)); auto.
    unfold bind at 1. unfold bind at 8. unfold lift. rewrite Hlab.
    reflexivity. }
  split; [|split; [exact Heq|]].
  - intros Hin. apply str_in_In in Hin. congruence.
  - rewrite Heq, set_probe_hole_None_depth,
      <- (set_probe_hole_None_depth labels 1).
    apply reachable_well_formed in Hr.
    destruct (@set_probe_hole_total labels 0 p HNone None self Hr Hp eq_refl)
      as [cur [Hcur Hrun]].
    rewrite Hrun. eexists. split; [reflexivity|].
    destruct cur as [c|].
    + rewrite assigned_none.
      * cbn [probe_memory]. apply DictFacts.get_set_same.
      * apply strings_nonempty with labels. eapply (wf_valid Hr); eauto.
    + exact Hcur.
Qed.

Lemma C10_none_spelled_out_witness :
  ~ In "NoNe" (strings DR1_labels)
  /\ set_probe_hole DR1_labels 1 "A" (HStr "NoNe") A_in_B2
     = set_probe_hole DR1_labels 1 "A" HNone A_in_B2
  /\ exists self',
       set_probe_hole DR1_labels 1 "A" (HStr "NoNe") A_in_B2 = (inr tt, self')
       /\ Dict.get "A" (probe_memory self') = Some None.
Proof.
  apply (@C10_none_spelled_out DR1_labels A_in_B2 "A" "NoNe" 0).
  - simpl; tauto.
  - reflexivity.
  - exact A_in_B2_reachable.
Defined.

(** ** Saving and loading *)

Section Loading.

Variable labels : Dict.t (list Z).

(** The inner loop of [load_targets] only ever writes [hole_memory[label]]. *)
Lemma load_inner_loop label its sv pm hm :
  exists hm',
    for_each its (fun kv : string * option string =>
      when (opt_eqb (snd kv) (Some label))
           (hole_memory_set label (Some (fst kv))))
      (mkImplantSVG sv pm hm)
    = (inr tt, mkImplantSVG sv pm hm')
    /\ Dict.set label None hm' = Dict.set label None hm.
Proof.
  revert hm. induction its as [|[k v] its IH]; intros hm.
  - exists hm. split; reflexivity.
  - cbn [for_each]. unfold bind at 1. cbn [snd fst].
    destruct (opt_eqb v (Some label)); cbn [when].
    + unfold hole_memory_set at 1. cbn [svg probe_memory hole_memory].
      destruct (IH (Dict.set label (Some k) hm)) as [hm' [E1 E2]].
      exists hm'. split; auto.
      now rewrite E2, DictFacts.set_set_same.
    + unfold ret at 1. apply IH.
Qed.

Lemma load_outer_loop strs sv pm hm :
  for_each strs (fun label =>
    bind probe_memory_items (fun its =>
    bind (for_each its (fun kv : string * option string =>
            when (opt_eqb (snd kv) (Some label))
                 (hole_memory_set label (Some (fst kv)))))
         (fun _ => hole_memory_set label None)))
    (mkImplantSVG sv pm hm)
  = (inr tt,
     mkImplantSVG sv pm (fold_left (fun h l => Dict.set l None h) strs hm)).
Proof.
  revert hm. induction strs as [|label strs IH]; intros hm.
  - reflexivity.
  - cbn [for_each fold_left]. unfold bind at 1. unfold bind at 1.
    unfold probe_memory_items at 1. cbn [probe_memory Dict.items].
    destruct (load_inner_loop label pm sv pm hm) as [hm' [E1 E2]].
    unfold bind at 1. rewrite E1.
    unfold hole_memory_set at 1. cbn [svg probe_memory hole_memory].
    rewrite E2. apply IH.
Qed.

(** [load_targets] in closed form. *)
Lemma load_targets_closed f self :
  load_targets labels f self
  = (inr tt,
     match f with
     | Some (kv :: t) =>
         mkImplantSVG (svg self) (kv :: t)
           (fold_left (fun h l => Dict.set l None h) (strings labels)
                      (hole_memory self))
     | _ => self
     end).
Proof.
  destruct f as [[|kv t]|]; try reflexivity.
  unfold load_targets. cbn [targets_from_disk truthy_dict].
  unfold bind at 1. destruct self as [sv pm hm].
  cbn [svg probe_memory hole_memory].
  apply load_outer_loop.
Qed.

Lemma get_fold_set_none_keep ls (hm : Dict.t (option string)) l :
  Dict.get l hm = Some None ->
  Dict.get l (fold_left (fun h l => Dict.set l None h) ls hm) = Some None.
Proof.
  revert hm. induction ls as [|l' ls IH]; intros hm H; simpl; auto.
  apply IH. rewrite DictFacts.get_set. now destruct (l' =? l).
Qed.

Lemma get_fold_set_none ls (hm : Dict.t (option string)) l :
  In l ls ->
  Dict.get l (fold_left (fun h l => Dict.set l None h) ls hm) = Some None.
Proof.
  revert hm. induction ls as [|l' ls IH]; intros hm H; simpl in *; [tauto|].
  destruct (string_dec l' l) as [->|Hne].
  - apply get_fold_set_none_keep, DictFacts.get_set_same.
  - apply IH. tauto.
Qed.

(** [json.dump(..., sort_keys=True)] keeps a dictionary whose keys are the
    six probes in their order. *)
Lemma sort_keys_probes (pm : Dict.t (option string)) :
  Dict.keys pm = probes -> sort_keys pm = pm.
Proof.
  intros H.
  do 7 (destruct pm as [|[? ?] pm]; try discriminate).
  cbn in H. injection H as -> -> -> -> -> ->. reflexivity.
Qed.

End Loading.

(** C4 (what the code does instead). Saving the [probe_memory] of a
    reachable instance and loading the file, into whatever instance, gives
    back the same [probe_memory], but leaves every label of [hole_memory]
    without a probe; so as soon as one probe holds a label, [hole_memory] is
    not [probe_memory] reversed. *)
Theorem C4_reload_forgets_holes (labels : Dict.t (list Z))
        (self self0 : ImplantSVG) :
  reachable labels self ->
  exists self',
    load_targets labels (save self) self0 = (inr tt, self')
    /\ probe_memory self' = probe_memory self
    /\ (forall l, In l (strings labels) ->
                  Dict.get l (hole_memory self') = Some None)
    /\ ((exists p l, Dict.get p (probe_memory self) = Some (Some l)) ->
        ~ consistent self').
Proof.
  intros Hr. apply reachable_well_formed in Hr.
  rewrite load_targets_closed. unfold save, targets_to_disk.
  rewrite sort_keys_probes by apply (wf_probes Hr).
  destruct (probe_memory self) as [|kv t] eqn:Epm.
  { pose proof (wf_probes Hr) as H. rewrite Epm in H. discriminate. }
  eexists. split; [reflexivity|]. cbn [probe_memory hole_memory].
  split; [reflexivity|]. split.
  - intros l Hl. now apply get_fold_set_none.
  - intros (p & l & Hpl) [Hinv _]. cbn [probe_memory hole_memory] in Hinv.
    pose proof (@wf_valid labels self Hr p l) as Hv. rewrite Epm in Hv.
    apply Hinv in Hpl.
    rewrite get_fold_set_none in Hpl; [discriminate|].
    apply Hv. now apply Hinv.
Qed.

Lemma C4_reload_forgets_holes_witness :
  exists self',
    load_targets DR1_labels (save A_in_B2) (init DR1_labels "") = (inr tt, self')
    /\ probe_memory self' = probe_memory A_in_B2
    /\ (forall l, In l (strings DR1_labels) ->
                  Dict.get l (hole_memory self') = Some None)
    /\ ((exists p l, Dict.get p (probe_memory A_in_B2) = Some (Some l)) ->
        ~ consistent self').
Proof.
  apply (@C4_reload_forgets_holes DR1_labels A_in_B2 (init DR1_labels "")).
  exact A_in_B2_reachable.
Defined.




(** ** Strings *)

Lemma append_assoc (a b c : string) : (a ++ b) ++ c = a ++ b ++ c.
Proof. induction a as [|x a IH]; simpl; congruence. Qed.

Lemma append_nil_r (a : string) : a ++ "" = a.
Proof. induction a as [|x a IH]; simpl; congruence. Qed.

Lemma length_append (a b : string) :
  String.length (a ++ b) = (String.length a + String.length b)%nat.
Proof. induction a as [|x a IH]; simpl; congruence. Qed.

Lemma gt_free_app (a b : string) : gt_free (a ++ b) = gt_free a && gt_free b.
Proof.
  induction a as [|x a IH]; simpl; auto.
  rewrite IH. now rewrite andb_assoc.
Qed.

Lemma gt_free_cons c s :
  gt_free (String c s) = true -> c <> ">"%char /\ gt_free s = true.
Proof.
  simpl. intros H. apply andb_true_iff in H. destruct H as [H1 H2].
  split; auto. apply negb_true_iff in H1. now apply Ascii.eqb_neq.
Qed.

(** *** Where a placeholder starts *)

Lemma prefix_gt_none (b seg : string) :
  gt_free seg = true -> prefix (b ++ ">") seg = false.
Proof.
  revert seg. induction b as [|x b IH]; intros seg H; destruct seg as [|c seg];
    cbn [append prefix]; auto; apply gt_free_cons in H; destruct H as [H1 H2].
  - destruct (ascii_dec ">" c); congruence.
  - destruct (ascii_dec x c); auto.
Qed.

Lemma prefix_gt_piece (b seg r : string) :
  gt_free b = true -> gt_free seg = true ->
  prefix (b ++ ">") (seg ++ String ">" r) = (seg =? b).
Proof.
  revert seg. induction b as [|x b IH]; intros seg Hb Hs;
    destruct seg as [|c seg]; cbn [append prefix String.eqb].
  - destruct (ascii_dec ">" ">"); [now destruct r|congruence].
  - apply gt_free_cons in Hs. destruct Hs as [H1 H2].
    destruct (ascii_dec ">" c); congruence.
  - apply gt_free_cons in Hb. destruct Hb as [H1 H2].
    destruct (ascii_dec x ">"); congruence.
  - apply gt_free_cons in Hb. apply gt_free_cons in Hs.
    destruct Hb as [Hb1 Hb2], Hs as [Hs1 Hs2].
    destruct (ascii_dec x c) as [->|Hne].
    + rewrite Ascii.eqb_refl. now apply IH.
    + destruct (Ascii.eqb_spec c x); congruence.
Qed.

(** *** [replace_from] on pieces *)

Lemma replace_from_skip old new (u s : string) k :
  replace_from old new (String.length u + k) (u ++ s)
  = replace_from old new k s.
Proof. induction u as [|c u IH]; simpl; auto. Qed.

Lemma replace_from_gt_free o new (u s : string) :
  gt_free u = true ->
  replace_from (String ">" o) new 0 (u ++ s)
  = u ++ replace_from (String ">" o) new 0 s.
Proof.
  induction u as [|c u IH]; intros H; auto.
  apply gt_free_cons in H. destruct H as [H1 H2].
  cbn [append replace_from prefix].
  destruct (ascii_dec ">" c); [congruence|].
  now rewrite IH.
Qed.

Lemma map_init_cons f piece pieces :
  pieces <> [] -> map_init f (piece :: pieces) = f piece :: map_init f pieces.
Proof. destruct pieces; [congruence|reflexivity]. Qed.

(** One call of [replace] with a placeholder, on the pieces: where the
    placeholder occurs at most once, it does [subst_piece] on every piece
    that has a [>] on both sides. *)
Lemma replace_tail (b nb : string) :
  gt_free b = true ->
  forall n pieces,
    (List.length pieces <= n)%nat ->
    Forall (fun piece => gt_free piece = true) pieces ->
    (count_occ string_dec (removelast pieces) b <= 1)%nat ->
    replace_from (String ">" (b ++ ">")) (String ">" (nb ++ ">")) 0
                 (tail_str pieces)
    = tail_str (map_init (subst_piece b nb) pieces).
Proof.
  intros Hb. induction n as [|n IH]; intros pieces Hn Hfree Hcount.
  { destruct pieces; [reflexivity|simpl in Hn; lia]. }
  destruct pieces as [|seg [|seg' rest]]; [reflexivity| |].
  - (* the last piece has no [>] behind it *)
    inversion Hfree as [|? ? Hseg _]. subst.
    cbn [tail_str map_init]. rewrite append_nil_r.
    cbn [replace_from prefix].
    destruct (ascii_dec ">" ">"); [|congruence].
    rewrite prefix_gt_none by assumption.
    rewrite <- (append_nil_r seg) at 1.
    rewrite replace_from_gt_free by assumption.
    cbn [replace_from]. now rewrite append_nil_r.
  - inversion Hfree as [|? ? Hseg Hfree']. subst.
    inversion Hfree' as [|? ? Hseg' Hfree'']. subst.
    rewrite map_init_cons by discriminate.
    cbn [tail_str]. cbn [replace_from prefix].
    destruct (ascii_dec ">" ">"); [|congruence].
    rewrite prefix_gt_piece by assumption.
    unfold subst_piece at 1.
    destruct (String.eqb_spec seg b) as [->|Hne].
    + (* a placeholder: it is replaced, and the next piece is passed *)
      change (removelast (b :: seg' :: rest))
        with (b :: removelast (seg' :: rest)) in Hcount.
      rewrite count_occ_cons_eq in Hcount by reflexivity.
      assert (H0 : count_occ string_dec (removelast (seg' :: rest)) b = 0%nat)
        by lia.
      replace (String.length (String ">" (b ++ ">")) - 1)%nat
        with (String.length (b ++ ">") + 0)%nat
        by (cbn [String.length]; lia).
      change (String ">" (seg' ++ tail_str rest))
        with (">" ++ seg' ++ tail_str rest).
      rewrite <- (append_assoc b ">").
      rewrite replace_from_skip.
      rewrite replace_from_gt_free by assumption.
      assert (Hrest : (count_occ string_dec (removelast rest) b <= 1)%nat).
      { destruct rest as [|seg'' rest]; [simpl; lia|].
        change (removelast (seg' :: seg'' :: rest))
          with (seg' :: removelast (seg'' :: rest)) in H0.
        destruct (string_dec seg' b) as [->|Hne'].
        - rewrite count_occ_cons_eq in H0 by reflexivity. discriminate.
        - rewrite count_occ_cons_neq in H0 by assumption. lia. }
      assert (Hlen : (List.length rest <= n)%nat) by (simpl in Hn; lia).
      rewrite (IH rest Hlen Hfree'' Hrest).
      cbn [append]. rewrite append_assoc. cbn [append].
      f_equal. f_equal.
      destruct rest as [|seg'' rest]; [reflexivity|].
      change (map_init (subst_piece b nb) (seg' :: seg'' :: rest))
        with (subst_piece b nb seg'
              :: map_init (subst_piece b nb) (seg'' :: rest)).
      assert (Hs : subst_piece b nb seg' = seg').
      { unfold subst_piece.
        destruct (String.eqb_spec seg' b) as [->|_]; [|reflexivity].
        change (removelast (b :: seg'' :: rest))
          with (b :: removelast (seg'' :: rest)) in H0.
        rewrite count_occ_cons_eq in H0 by reflexivity. discriminate. }
      rewrite Hs. reflexivity.
    + change (removelast (seg :: seg' :: rest))
        with (seg :: removelast (seg' :: rest)) in Hcount.
      rewrite count_occ_cons_neq in Hcount by assumption.
      rewrite replace_from_gt_free by assumption.
      f_equal. f_equal.
      change (String ">" (seg' ++ tail_str rest)) with (tail_str (seg' :: rest)).
      apply IH; auto. simpl in Hn. simpl. lia.
Qed.

(** *** A drawing and its pieces *)

Lemma concat_tail (piece : string) (pieces : list string) :
  concat ">" (piece :: pieces) = piece ++ tail_str pieces.
Proof.
  revert piece. induction pieces as [|piece' pieces IH]; intros piece.
  - simpl. now rewrite append_nil_r.
  - change (concat ">" (piece :: piece' :: pieces))
      with (piece ++ ">" ++ concat ">" (piece' :: pieces)).
    now rewrite IH.
Qed.

Lemma split_gt_nonempty (s : string) : split_gt s <> [].
Proof.
  destruct s as [|c s]; simpl; [discriminate|].
  destruct (Ascii.eqb c ">"); [discriminate|].
  destruct (split_gt s); discriminate.
Qed.

Lemma concat_split_gt (s : string) : concat ">" (split_gt s) = s.
Proof.
  induction s as [|c s IH]; [reflexivity|].
  cbn [split_gt]. destruct (Ascii.eqb_spec c ">") as [->|Hne].
  - destruct (split_gt s) as [|piece pieces] eqn:E.
    + now destruct (split_gt_nonempty s).
    + rewrite concat_tail. rewrite concat_tail in IH.
      cbn [append tail_str]. now rewrite IH.
  - destruct (split_gt s) as [|piece pieces] eqn:E.
    + now destruct (split_gt_nonempty s).
    + rewrite concat_tail. rewrite concat_tail in IH.
      cbn [append]. now rewrite IH.
Qed.

Lemma split_gt_free (s : string) :
  Forall (fun piece => gt_free piece = true) (split_gt s).
Proof.
  induction s as [|c s IH]; [repeat constructor|].
  cbn [split_gt]. destruct (Ascii.eqb c ">") eqn:E.
  - constructor; auto.
  - destruct (split_gt s) as [|piece pieces]; [repeat constructor; simpl; now rewrite E|].
    inversion IH. subst. constructor; auto. simpl. now rewrite E.
Qed.

(** *** Maps over the pieces *)

Lemma map_init_map_init f g pieces :
  map_init g (map_init f pieces) = map_init (fun x => g (f x)) pieces.
Proof.
  induction pieces as [|piece [|piece' pieces] IH]; try reflexivity.
  change (map_init f (piece :: piece' :: pieces))
    with (f piece :: map_init f (piece' :: pieces)).
  change (map_init (fun x => g (f x)) (piece :: piece' :: pieces))
    with (g (f piece) :: map_init (fun x => g (f x)) (piece' :: pieces)).
  rewrite <- IH.
  destruct (map_init f (piece' :: pieces)) eqn:E; [|reflexivity].
  destruct pieces; discriminate.
Qed.

Lemma map_init_ext f g pieces :
  (forall x, f x = g x) -> map_init f pieces = map_init g pieces.
Proof.
  intros H. induction pieces as [|piece [|piece' pieces] IH]; try reflexivity.
  change (map_init f (piece :: piece' :: pieces))
    with (f piece :: map_init f (piece' :: pieces)).
  change (map_init g (piece :: piece' :: pieces))
    with (g piece :: map_init g (piece' :: pieces)).
  now rewrite IH, H.
Qed.

Lemma removelast_map_init f pieces :
  removelast (map_init f pieces) = map f (removelast pieces).
Proof.
  induction pieces as [|piece [|piece' pieces] IH]; try reflexivity.
  change (map_init f (piece :: piece' :: pieces))
    with (f piece :: map_init f (piece' :: pieces)).
  change (removelast (piece :: piece' :: pieces))
    with (piece :: removelast (piece' :: pieces)).
  cbn [map]. rewrite <- IH.
  destruct (map_init f (piece' :: pieces)) eqn:E; [|reflexivity].
  destruct pieces; discriminate.
Qed.

Lemma Forall_map_init (P : string -> Prop) f pieces :
  (forall x, P x -> P (f x)) -> Forall P pieces -> Forall P (map_init f pieces).
Proof.
  intros Hf. induction pieces as [|piece [|piece' pieces] IH]; intros H; auto.
  change (map_init f (piece :: piece' :: pieces))
    with (f piece :: map_init f (piece' :: pieces)).
  inversion H. subst. constructor; auto.
Qed.

Lemma count_occ_map_le f (l : list string) (y : string) :
  (forall x, f x = y -> x = y) ->
  (count_occ string_dec (map f l) y <= count_occ string_dec l y)%nat.
Proof.
  intros Hf. induction l as [|x l IH]; simpl; auto.
  destruct (string_dec (f x) y) as [E|E].
  - apply Hf in E. destruct (string_dec x y); [lia|contradiction].
  - destruct (string_dec x y); lia.
Qed.

(** *** Placeholders and markers *)

Lemma plain_label_spec l :
  plain_label l = true ->
  gt_free l = true
  /\ exists c l', l = String c l' /\ c <> " "%char /\ c <> "<"%char.
Proof.
  unfold plain_label. intros H. apply andb_true_iff in H.
  destruct H as [H1 H2]. split; auto.
  destruct l as [|c l']; [discriminate|].
  apply andb_true_iff in H2. destruct H2 as [H2 H3].
  apply negb_true_iff in H2, H3.
  exists c, l'. repeat split; now apply Ascii.eqb_neq.
Qed.

(** The text shown for a hole is never the placeholder of a plain label. *)
Lemma shown_not_placeholder (probe : option string) l :
  plain_label l = true ->
  shown_text probe ++ "</tspan" <> l ++ "</tspan".
Proof.
  intros H. apply plain_label_spec in H.
  destruct H as [_ (c & l' & -> & H1 & H2)].
  destruct probe as [p|]; cbn [shown_text append]; congruence.
Qed.

Lemma render_piece_shown ls shown probe :
  Forall (fun l => plain_label l = true) ls ->
  render_piece ls shown (shown_text probe ++ "</tspan")
  = shown_text probe ++ "</tspan".
Proof.
  induction 1 as [|l ls Hl _ IH]; [reflexivity|].
  cbn [render_piece].
  destruct (String.eqb_spec (shown_text probe ++ "</tspan") (l ++ "</tspan"))
    as [E|_]; auto.
  now apply shown_not_placeholder in E.
Qed.

Lemma placeholder_pieces l :
  placeholder l = String ">" ((l ++ "</tspan") ++ ">").
Proof. unfold placeholder. now rewrite append_assoc. Qed.

Lemma marker_pieces probe :
  marker probe = String ">" ((shown_text probe ++ "</tspan") ++ ">").
Proof.
  destruct probe as [p|]; [|reflexivity].
  cbn [marker shown_text append]. now rewrite append_assoc.
Qed.

Lemma gt_free_placeholder l :
  gt_free l = true -> gt_free (l ++ "</tspan") = true.
Proof. intros H. now rewrite gt_free_app, H. Qed.

(** One call of [replace], on the pieces of a drawing. *)
Lemma replace_pieces l probe pieces :
  gt_free l = true ->
  pieces <> [] ->
  Forall (fun piece => gt_free piece = true) pieces ->
  (count_occ string_dec (inner pieces) (l ++ "</tspan") <= 1)%nat ->
  replace (placeholder l) (marker probe) (concat ">" pieces)
  = concat ">" (map_inner (subst_piece (l ++ "</tspan")
                                       (shown_text probe ++ "</tspan"))
                          pieces).
Proof.
  intros Hl Hne Hfree Hcount.
  destruct pieces as [|piece pieces]; [congruence|].
  inversion Hfree as [|? ? Hpiece Hfree']. subst.
  cbn [map_inner]. rewrite !concat_tail.
  rewrite placeholder_pieces, marker_pieces. cbn [replace].
  rewrite replace_from_gt_free by assumption.
  f_equal.
  apply replace_tail with (n := List.length pieces); auto.
  now apply gt_free_placeholder.
Qed.


(** *** All the calls of [replace] of a rendering *)

Lemma map_init_id pieces : map_init (fun x => x) pieces = pieces.
Proof.
  induction pieces as [|piece [|piece' pieces] IH]; try reflexivity.
  change (map_init (fun x => x) (piece :: piece' :: pieces))
    with (piece :: map_init (fun x => x) (piece' :: pieces)).
  now rewrite IH.
Qed.

Lemma gt_free_shown (probe : option string) :
  (forall p, probe = Some p -> gt_free p = true) ->
  gt_free (shown_text probe ++ "</tspan") = true.
Proof.
  intros H. destruct probe as [p|]; [|reflexivity].
  cbn [shown_text append gt_free]. rewrite gt_free_app, (H p eq_refl).
  reflexivity.
Qed.

Lemma render_fold (shown : string -> option string) (ls : list string) :
  Forall (fun l => plain_label l = true) ls ->
  (forall l p, In l ls -> shown l = Some p -> gt_free p = true) ->
  forall pieces,
    pieces <> [] ->
    Forall (fun piece => gt_free piece = true) pieces ->
    (forall l, In l ls ->
               (count_occ string_dec (inner pieces) (l ++ "</tspan") <= 1)%nat) ->
    fold_left (fun data l => replace (placeholder l) (marker (shown l)) data)
              ls (concat ">" pieces)
    = concat ">" (map_inner (render_piece ls shown) pieces).
Proof.
  intros Hplain. induction Hplain as [|l ls Hl Hls IH];
    intros Hshown pieces Hne Hfree Hcount.
  - cbn [fold_left]. destruct pieces as [|piece pieces]; [congruence|].
    cbn [map_inner]. f_equal. f_equal. symmetry.
    change (render_piece [] shown) with (fun x : string => x).
    apply map_init_id.
  - cbn [fold_left].
    destruct (plain_label_spec _ Hl) as [Hfl _].
    rewrite replace_pieces; auto; [|apply Hcount; now left].
    set (f := subst_piece (l ++ "</tspan") (shown_text (shown l) ++ "</tspan")).
    assert (Hf : forall x, gt_free x = true -> gt_free (f x) = true).
    { intros x Hx. unfold f, subst_piece.
      destruct (x =? l ++ "</tspan"); auto.
      apply gt_free_shown. intros p Hp. apply (Hshown l p); auto. now left. }
    destruct pieces as [|piece pieces]; [congruence|].
    inversion Hfree as [|? ? Hpiece Hfree']. subst.
    rewrite IH.
    + cbn [map_inner]. f_equal. f_equal.
      rewrite map_init_map_init. apply map_init_ext. intros x.
      unfold f, subst_piece. cbn [render_piece].
      destruct (x =? l ++ "</tspan"); auto.
      now apply render_piece_shown.
    + intros m p Hm. apply Hshown. now right.
    + discriminate.
    + cbn [map_inner]. constructor; auto. now apply Forall_map_init.
    + intros m Hm. cbn [map_inner]. unfold inner. cbn [tl].
      rewrite removelast_map_init.
      eapply Nat.le_trans; [apply count_occ_map_le|apply (Hcount m); now right].
      intros x. unfold f, subst_piece.
      destruct (x =? l ++ "</tspan"); auto.
      intros E. apply shown_not_placeholder in E; [contradiction|].
      rewrite Forall_forall in Hls. now apply Hls.
Qed.

(** A rendering, from the drawing itself. *)
Lemma render_fold_svg (shown : string -> option string) ls (svg0 : string) :
  Forall (fun l => plain_label l = true) ls ->
  (forall l p, In l ls -> shown l = Some p -> gt_free p = true) ->
  (forall l, In l ls -> (placeholders l svg0 <= 1)%nat) ->
  fold_left (fun data l => replace (placeholder l) (marker (shown l)) data)
            ls svg0
  = render_pieces ls shown svg0.
Proof.
  intros Hplain Hshown Hcount. unfold render_pieces.
  rewrite <- (concat_split_gt svg0) at 1.
  apply render_fold; auto.
  - apply split_gt_nonempty.
  - apply split_gt_free.
Qed.

Lemma fold_items_keys {A} (F : string -> option string -> A -> A)
      (d : Dict.t (option string)) its (a : A) :
  (forall kv, In kv its -> Dict.get (fst kv) d = Some (snd kv)) ->
  fold_left (fun data kv => F (fst kv) (snd kv) data) its a
  = fold_left (fun data k =>
                 F k match Dict.get k d with Some v => v | None => None end data)
              (map fst its) a.
Proof.
  revert a. induction its as [|kv its IH]; intros a H; [reflexivity|].
  cbn [fold_left map]. rewrite (H kv) by now left.
  apply IH. intros kv' Hin. apply H. now right.
Qed.

Lemma first_key_of_absent l targets :
  existsb (fun v => opt_eqb v (Some l)) (Dict.values targets) = false ->
  first_key_of l targets = None.
Proof.
  induction targets as [|[k v] targets IH]; [reflexivity|].
  cbn [Dict.values map snd existsb first_key_of]. intros H.
  apply orb_false_iff in H. destruct H as [H1 H2].
  rewrite H1. now apply IH.
Qed.

Lemma first_key_of_in l targets k :
  first_key_of l targets = Some k -> In k (Dict.keys targets).
Proof.
  induction targets as [|[k' v] targets IH]; [discriminate|].
  cbn [first_key_of Dict.keys map fst].
  destruct (opt_eqb v (Some l)).
  - intros [= ->]. now left.
  - intros H. right. now apply IH.
Qed.

Lemma fold_left_ext {A B} (f g : A -> B -> A) (l : list B) (a : A) :
  (forall a b, f a b = g a b) -> fold_left f l a = fold_left g l a.
Proof.
  intros H. revert a. induction l as [|b l IH]; intros a; [reflexivity|].
  cbn [fold_left]. now rewrite H, IH.
Qed.

Lemma distinct_NoDup ls : distinct ls = true -> NoDup ls.
Proof.
  induction ls as [|l ls IH]; intros H; [constructor|].
  cbn [distinct] in H. apply andb_true_iff in H. destruct H as [H1 H2].
  constructor; auto. intros Hin. apply str_in_In in Hin.
  rewrite Hin in H1. discriminate.
Qed.

Lemma plain_labels_spec labels :
  plain_labels labels = true ->
  Forall (fun l => plain_label l = true) (strings labels)
  /\ NoDup (strings labels).
Proof.
  unfold plain_labels. intros H. apply andb_true_iff in H.
  destruct H as [H1 H2]. split.
  - apply Forall_forall. now apply forallb_forall.
  - now apply distinct_NoDup.
Qed.

Lemma init_hole_keys labels svg0 :
  NoDup (strings labels) ->
  Dict.keys (hole_memory (init labels svg0)) = strings labels.
Proof.
  intros H. cbn [init hole_memory].
  rewrite DictFacts.keys_of_pairs; rewrite map_fst_combine_repeat; auto.
Qed.

Lemma probes_gt_free p : In p probes -> gt_free p = true.
Proof. simpl. intuition (subst; reflexivity). Qed.

Lemma shown_for_first_key_of targets l probe :
  shown_for targets l probe -> first_key_of l targets = probe.
Proof.
  destruct probe as [p|]; cbn [shown_for].
  - intros (before & after & -> & Hbefore).
    induction before as [|[k v] before IH]; cbn [app first_key_of].
    + now rewrite opt_eqb_refl.
    + assert (E : opt_eqb v (Some l) = false).
      { apply opt_eqb_neq. apply (Hbefore (k, v)). now left. }
      rewrite E. apply IH. intros kv Hkv. apply Hbefore. now right.
  - induction targets as [|[k v] targets IH]; intros H; [reflexivity|].
    cbn [first_key_of].
    assert (E : opt_eqb v (Some l) = false).
    { apply opt_eqb_neq. apply (H (k, v)). now left. }
    rewrite E. apply IH. intros kv Hkv. apply H. now right.
Qed.

Lemma render_piece_ext ls (shown1 shown2 : string -> option string) x :
  (forall l, In l ls -> shown1 l = shown2 l) ->
  render_piece ls shown1 x = render_piece ls shown2 x.
Proof.
  induction ls as [|l ls IH]; intros H; [reflexivity|].
  cbn [render_piece]. rewrite (H l) by now left.
  rewrite IH; auto. intros m Hm. apply H. now right.
Qed.

Lemma render_pieces_ext ls (shown1 shown2 : string -> option string) svg0 :
  (forall l, In l ls -> shown1 l = shown2 l) ->
  render_pieces ls shown1 svg0 = render_pieces ls shown2 svg0.
Proof.
  intros H. unfold render_pieces. f_equal.
  destruct (split_gt svg0) as [|piece pieces]; [reflexivity|].
  cbn [map_inner]. f_equal. apply map_init_ext.
  intros x. now apply render_piece_ext.
Qed.

(** C5. On a drawing in which no label has more than one placeholder, a
    rendering is one substitution per label and touches nothing but the
    placeholders: cut at every [>], the drawing is a list of pieces, and
    what [show_memory] returns for a reachable instance, as well as what the
    loop of [show_targets] returns for targets whose keys have no [>], is
    the drawing in which every piece [l</tspan] between two [>], for a label
    [l] of the label space, has become [ p</tspan] when probe [p] is shown
    for [l] and [</tspan] when none is, and in which every other piece, any
    other occurrence of a label among them, is what it was.  The probe
    shown for [l] is, for [show_memory], the probe that holds [l] in
    [probe_memory]; for [show_targets], the first key of the targets whose
    target is [l]. *)
Theorem C5_rendering_scoped (labels : Dict.t (list Z)) (self : ImplantSVG) :
  plain_labels labels = true ->
  reachable labels self ->
  (forall l, In l (strings labels) -> (placeholders l (svg self) <= 1)%nat) ->
  show_memory self = render_pieces (strings labels) (holder self) (svg self)
  /\ (forall l p, holder self l = Some p
                  <-> Dict.get p (probe_memory self) = Some (Some l))
  /\ forall svg0 targets shown,
       (forall l, In l (strings labels) -> (placeholders l svg0 <= 1)%nat) ->
       forallb gt_free (Dict.keys targets) = true ->
       (forall l, In l (strings labels) -> shown_for targets l (shown l)) ->
       show_targets_data labels svg0 targets
       = render_pieces (strings labels) shown svg0.
Proof.
  intros Hlabels Hr Hcount. apply plain_labels_spec in Hlabels.
  destruct Hlabels as [Hplain Hnd]. apply reachable_well_formed in Hr.
  assert (Hkeys : Dict.keys (hole_memory self) = strings labels).
  { rewrite (wf_holes Hr). now apply init_hole_keys. }
  split; [|split].
  - unfold show_memory, Dict.items.
    rewrite (@fold_items_keys string
               (fun k v data => replace (placeholder k) (marker v) data)
               (hole_memory self)).
    + fold (Dict.keys (hole_memory self)). rewrite Hkeys.
      apply (render_fold_svg (holder self)); auto.
      intros l p _ Hp. unfold holder in Hp.
      destruct (Dict.get l (hole_memory self)) as [v|] eqn:E; [|discriminate].
      subst v. apply (wf_inverse Hr) in E.
      apply DictFacts.get_some_in_keys in E. rewrite (wf_probes Hr) in E.
      now apply probes_gt_free.
    + intros [k v] Hin. apply DictFacts.in_items_get; auto.
      rewrite Hkeys. exact Hnd.
  - intros l p. rewrite <- (wf_inverse Hr). unfold holder.
    destruct (Dict.get l (hole_memory self)) as [v|]; split; congruence.
  - intros svg0 targets shown Hcount0 Hkeys0 Hshown.
    rewrite (render_pieces_ext (strings labels) shown
               (fun l => first_key_of l targets) svg0).
    2:{ intros l Hl. symmetry. apply shown_for_first_key_of. now apply Hshown. }
    unfold show_targets_data.
    rewrite <- (render_fold_svg (fun l => first_key_of l targets)); auto.
    + apply fold_left_ext. intros data l.
      destruct (existsb (fun v => opt_eqb v (Some l)) (Dict.values targets))
        eqn:E; auto.
      now rewrite first_key_of_absent.
    + intros l p _ Hp. apply first_key_of_in in Hp.
      rewrite forallb_forall in Hkeys0. now apply Hkeys0.
Qed.

Lemma A_in_B2_placeholders l :
  In l (strings DR1_labels) -> (placeholders l (svg A_in_B2) <= 1)%nat.
Proof.
  intros H. vm_compute in H.
  repeat (destruct H as [<-|H]; [vm_compute; repeat constructor|]).
  contradiction.
Qed.

Lemma C5_rendering_scoped_witness :
  show_memory A_in_B2
  = render_pieces (strings DR1_labels) (holder A_in_B2) (svg A_in_B2)
  /\ (forall l p, holder A_in_B2 l = Some p
                  <-> Dict.get p (probe_memory A_in_B2) = Some (Some l))
  /\ forall svg0 targets shown,
       (forall l, In l (strings DR1_labels) -> (placeholders l svg0 <= 1)%nat) ->
       forallb gt_free (Dict.keys targets) = true ->
       (forall l, In l (strings DR1_labels) -> shown_for targets l (shown l)) ->
       show_targets_data DR1_labels svg0 targets
       = render_pieces (strings DR1_labels) shown svg0.
Proof.
  apply (@C5_rendering_scoped DR1_labels A_in_B2).
  - reflexivity.
  - exact A_in_B2_reachable.
  - exact A_in_B2_placeholders.
Defined.

(** The drawing of the witness, rendered: the placeholder of B2 shows
    probe A, the placeholder of A1 is blank, the attribute that mentions B2
    is what it was. *)
Example show_memory_A_in_B2 :
  show_memory A_in_B2
  = "<text id='B2'><tspan> A</tspan><tspan></tspan></text>".
Proof. reflexivity. Qed.

(** Outside the contract of C5: of two placeholders of one label that share
    their [>], [str.replace] passes the second. *)
Example show_memory_shared_gt :
  show_memory (init DR1_labels "<tspan>A1</tspan>A1</tspan>")
  = "<tspan></tspan>A1</tspan>".
Proof. reflexivity. Qed.

(** * More of the class *)

Example show_targets_ints :
  show_targets DR1_labels "<tspan>B2</tspan><tspan>A1</tspan>" None
               [HInt 1; HInt 2; HNone; HInt 0; HNone; HNone]
  = inr "<tspan> B</tspan><tspan> A</tspan>".
Proof. reflexivity. Qed.

(** ** [set_probe_hole]: what it refuses, what it leaves alone *)

Lemma body_label_ext labels rec p h1 h2 self :
  label_of_hole labels h1 = label_of_hole labels h2 ->
  set_probe_hole_body labels rec p h1 self
  = set_probe_hole_body labels rec p h2 self.
Proof. intros H. unfold set_probe_hole_body. now rewrite H. Qed.

Lemma label_of_hole_error labels h e :
  label_of_hole labels h = inl e ->
  e = ValueError index_must_be_in_range
  \/ e = ValueError hole_index_must_be_label.
Proof.
  destruct h as [|i|s]; cbn [label_of_hole]; [discriminate| |].
  - unfold index_to_label.
    destruct ((0 <=? i)%Z && (i <? Z.of_nat (List.length (strings labels)))%Z)
      eqn:E; cbn [negb]; [|intros [= <-]; now left].
    apply andb_true_iff in E. destruct E as [E1 E2].
    apply Z.leb_le in E1. apply Z.ltb_lt in E2.
    destruct (nth_error (strings labels) (Z.to_nat i)) eqn:En; [discriminate|].
    apply nth_error_None in En. lia.
  - destruct (str_in s (strings labels)); [discriminate|].
    destruct (lower s =? "none"); [discriminate|].
    intros [= <-]. now right.
Qed.

Lemma set_probe_hole_bad_probe labels d p h self :
  ~ In p probes ->
  set_probe_hole labels (S d) p h self
  = (inl (ValueError probe_must_be_one_of_A_F), self).
Proof.
  intros Hp. cbn [set_probe_hole]. unfold set_probe_hole_body.
  destruct (str_in p probes) eqn:E; [|reflexivity].
  apply str_in_In in E. contradiction.
Qed.

Lemma set_probe_hole_bad_hole labels d p h self e :
  In p probes ->
  label_of_hole labels h = inl e ->
  set_probe_hole labels (S d) p h self = (inl e, self).
Proof.
  intros Hp He. apply str_in_In in Hp.
  cbn [set_probe_hole]. unfold set_probe_hole_body. rewrite Hp.
  cbn [negb]. unfold bind at 1. unfold lift. now rewrite He.
Qed.

(** Whatever the instance, [set_probe_hole] raises before it writes
    anything: for a probe that is none of A-F; for a valid probe and an
    argument that stands for no label, a string that is neither a label nor
    a spelling of none among them; for a valid probe that [probe_memory]
    does not have, a [KeyError].  The instance is then what it was. *)
Theorem set_probe_hole_rejects (labels : Dict.t (list Z)) (d : nat)
        (p : string) (h : hole_arg) (self : ImplantSVG) :
  (~ In p probes ->
   set_probe_hole labels (S d) p h self
   = (inl (ValueError probe_must_be_one_of_A_F), self))
  /\ (In p probes ->
      forall e, label_of_hole labels h = inl e ->
                set_probe_hole labels (S d) p h self = (inl e, self))
  /\ (In p probes ->
      forall s, h = HStr s -> ~ In s (strings labels) -> lower s <> "none" ->
                set_probe_hole labels (S d) p h self
                = (inl (ValueError hole_index_must_be_label), self))
  /\ (In p probes ->
      forall label, label_of_hole labels h = inr label ->
                    Dict.get p (probe_memory self) = None ->
                    set_probe_hole labels (S d) p h self
                    = (inl (KeyError p), self)).
Proof.
  split; [apply set_probe_hole_bad_probe|].
  split; [intros Hp e; now apply set_probe_hole_bad_hole|]. split.
  - intros Hp s -> Hs Hl. apply set_probe_hole_bad_hole; auto.
    cbn [label_of_hole].
    destruct (str_in s (strings labels)) eqn:E.
    + apply str_in_In in E. contradiction.
    + apply String.eqb_neq in Hl. now rewrite Hl.
  - intros Hp label Hlab Hget. apply str_in_In in Hp.
    cbn [set_probe_hole]. unfold set_probe_hole_body. rewrite Hp.
    cbn [negb]. unfold bind at 1. unfold lift. rewrite Hlab.
    unfold bind at 1. unfold probe_memory_get at 1. now rewrite Hget.
Qed.

(** On a reachable instance a call that fails has changed nothing, and
    what it raised is one of the three [ValueError]s of the arguments: no
    [KeyError], no [IndexError], and two frames are never exceeded. *)
Theorem set_probe_hole_failure_atomic (labels : Dict.t (list Z))
        (self self' : ImplantSVG) (d : nat) (p : string) (h : hole_arg)
        (e : exn) :
  reachable labels self ->
  set_probe_hole labels (S (S d)) p h self = (inl e, self') ->
  self' = self
  /\ (e = ValueError probe_must_be_one_of_A_F
      \/ e = ValueError index_must_be_in_range
      \/ e = ValueError hole_index_must_be_label).
Proof.
  intros Hr Hrun. apply reachable_well_formed in Hr.
  destruct (in_dec string_dec p probes) as [Hp|Hp].
  - destruct (label_of_hole labels h) as [e0|label] eqn:El.
    + rewrite (@set_probe_hole_bad_hole labels (S d) p h self e0 Hp El) in Hrun.
      injection Hrun as <- <-.
      split; auto. right. eapply label_of_hole_error; eauto.
    + destruct (@set_probe_hole_total labels d p h label self Hr Hp El)
        as [cur [_ Hok]].
      rewrite Hok in Hrun. discriminate.
  - rewrite (@set_probe_hole_bad_probe labels (S d) p h self Hp) in Hrun.
    injection Hrun as <- <-. auto.
Qed.

Lemma set_probe_hole_failure_atomic_witness :
  A_in_B2 = A_in_B2
  /\ (ValueError hole_index_must_be_label
      = ValueError probe_must_be_one_of_A_F
      \/ ValueError hole_index_must_be_label
         = ValueError index_must_be_in_range
      \/ ValueError hole_index_must_be_label
         = ValueError hole_index_must_be_label).
Proof.
  apply (@set_probe_hole_failure_atomic DR1_labels A_in_B2 A_in_B2 0 "B"
           (HStr "G7") (ValueError hole_index_must_be_label)).
  - exact A_in_B2_reachable.
  - reflexivity.
Defined.

(** On a reachable instance, [set_probe_hole(p, None)] for a probe [p] that
    holds label [l] succeeds at any depth; afterwards [p] holds nothing and
    hole [l] has no probe, and every other probe and every other hole is as
    before. *)
Theorem set_probe_hole_none_frees (labels : Dict.t (list Z))
        (self : ImplantSVG) (d : nat) (p l : string) :
  reachable labels self ->
  Dict.get p (probe_memory self) = Some (Some l) ->
  exists self',
    set_probe_hole labels (S d) p HNone self = (inr tt, self')
    /\ Dict.get p (probe_memory self') = Some None
    /\ Dict.get l (hole_memory self') = Some None
    /\ (forall q, q <> p ->
                  Dict.get q (probe_memory self') = Dict.get q (probe_memory self))
    /\ (forall l', l' <> l ->
                   Dict.get l' (hole_memory self') = Dict.get l' (hole_memory self)).
Proof.
  intros Hr Hget. apply reachable_well_formed in Hr.
  assert (Hp : In p probes).
  { rewrite <- (wf_probes Hr). eapply DictFacts.get_some_in_keys; eauto. }
  assert (Hl : l <> "").
  { apply strings_nonempty with labels. eapply (wf_valid Hr); eauto. }
  rewrite set_probe_hole_None_depth,
    <- (set_probe_hole_None_depth labels 1).
  destruct (@set_probe_hole_total labels 0 p HNone None self Hr Hp eq_refl)
    as [cur [Hcur Hrun]].
  rewrite Hget in Hcur. injection Hcur as <-.
  rewrite Hrun, assigned_none by assumption.
  eexists. split; [reflexivity|]. cbn [probe_memory hole_memory].
  rewrite !DictFacts.get_set_same. repeat split; auto.
  - intros q Hq. now apply DictFacts.get_set_other.
  - intros l' Hl'. now apply DictFacts.get_set_other.
Qed.

Lemma set_probe_hole_none_frees_witness :
  exists self',
    set_probe_hole DR1_labels 1 "A" HNone A_in_B2 = (inr tt, self')
    /\ Dict.get "A" (probe_memory self') = Some None
    /\ Dict.get "B2" (hole_memory self') = Some None
    /\ (forall q, q <> "A" ->
                  Dict.get q (probe_memory self')
                  = Dict.get q (probe_memory A_in_B2))
    /\ (forall l', l' <> "B2" ->
                   Dict.get l' (hole_memory self')
                   = Dict.get l' (hole_memory A_in_B2)).
Proof.
  apply (@set_probe_hole_none_frees DR1_labels A_in_B2 0 "A" "B2").
  - exact A_in_B2_reachable.
  - reflexivity.
Defined.

(** On a reachable instance, [set_probe_hole(p, l)] touches nothing but
    [p], the probe that held [l], the hole [p] held and the hole [l]: any
    other probe keeps its label and any other hole its probe. *)
Theorem set_probe_hole_frame (labels : Dict.t (list Z))
        (self self' : ImplantSVG) (d : nat) (p l : string) :
  reachable labels self ->
  In l (strings labels) ->
  set_probe_hole labels d p (HStr l) self = (inr tt, self') ->
  (forall q, q <> p ->
             Dict.get q (probe_memory self) <> Some (Some l) ->
             Dict.get q (probe_memory self') = Dict.get q (probe_memory self))
  /\ (forall l', l' <> l ->
                 Dict.get p (probe_memory self) <> Some (Some l') ->
                 Dict.get l' (hole_memory self') = Dict.get l' (hole_memory self)).
Proof.
  intros Hr Hl Hrun. apply reachable_well_formed in Hr.
  destruct (set_probe_hole_assigned _ _ _ Hr Hrun)
    as (label & cur & Hp & Hlab & Hcur & ->).
  rewrite (@label_of_hole_str labels l Hl) in Hlab. injection Hlab as <-.
  destruct (opt_eqb cur (Some l)) eqn:E.
  { unfold assigned. rewrite E. split; reflexivity. }
  apply opt_eqb_neq in E.
  rewrite assigned_some; auto; [|now apply strings_nonempty with labels].
  cbn [probe_memory hole_memory]. split.
  - intros q Hq Hql. rewrite DictFacts.get_set_other by congruence.
    rewrite get_clear_label.
    destruct (Dict.get q (probe_memory self)) as [v|]; auto.
    destruct (opt_eqb v (Some l)) eqn:Ev; auto.
    apply opt_eqb_eq in Ev. congruence.
  - intros l' Hl' Hpl. rewrite DictFacts.get_set_other by congruence.
    destruct cur as [c|]; auto.
    destruct (truthy (Some c)); auto.
    apply DictFacts.get_set_other. congruence.
Qed.

Lemma set_probe_hole_frame_witness :
  (forall q, q <> "C" ->
             Dict.get q (probe_memory A_in_B2) <> Some (Some "C1") ->
             Dict.get q (probe_memory
                           (snd (set_probe_hole DR1_labels 2 "C" (HStr "C1")
                                                A_in_B2)))
             = Dict.get q (probe_memory A_in_B2))
  /\ (forall l', l' <> "C1" ->
                 Dict.get "C" (probe_memory A_in_B2) <> Some (Some l') ->
                 Dict.get l' (hole_memory
                                (snd (set_probe_hole DR1_labels 2 "C"
                                                     (HStr "C1") A_in_B2)))
                 = Dict.get l' (hole_memory A_in_B2)).
Proof.
  apply (@set_probe_hole_frame DR1_labels A_in_B2 _ 2 "C" "C1").
  - exact A_in_B2_reachable.
  - vm_compute; tauto.
  - reflexivity.
Defined.


(** ** What no call changes *)

Section Shape.

Variable labels : Dict.t (list Z).

Lemma same_refl self : same_drawing_and_probes self self.
Proof. split; reflexivity. Qed.

Lemma same_trans s1 s2 s3 :
  same_drawing_and_probes s1 s2 -> same_drawing_and_probes s2 s3 ->
  same_drawing_and_probes s1 s3.
Proof. intros [H1 H2] [H3 H4]. split; congruence. Qed.

(** Computations that keep the drawing and the probes, started where probe
    [p] is a key. *)
Variable p : string.

Let has_p (self : ImplantSVG) : Prop := In p (Dict.keys (probe_memory self)).

Let keeps {A} (c : M A) : Prop :=
  forall self, has_p self -> same_drawing_and_probes self (snd (c self)).

Lemma keeps_bind {A B} (c : M A) (k : A -> M B) :
  keeps c -> (forall a, keeps (k a)) -> keeps (bind c k).
Proof.
  intros Hc Hk self Hp. unfold bind.
  specialize (Hc self Hp). destruct (c self) as [[e|a] s1]; cbn [snd] in *.
  - exact Hc.
  - apply same_trans with s1; auto. apply Hk.
    destruct Hc as [_ Hkeys]. unfold has_p. now rewrite Hkeys.
Qed.

Lemma keeps_ret {A} (a : A) : keeps (ret a).
Proof. intros self _. apply same_refl. Qed.

Lemma keeps_when b (c : M unit) : keeps c -> keeps (when b c).
Proof. destruct b; auto. intros _. apply keeps_ret. Qed.

Lemma keeps_for_each {A} (xs : list A) (f : A -> M unit) :
  (forall x, keeps (f x)) -> keeps (for_each xs f).
Proof.
  intros H. induction xs as [|x xs IH]; cbn [for_each].
  - apply keeps_ret.
  - apply keeps_bind; auto.
Qed.

Lemma keeps_hole_memory_set l v : keeps (hole_memory_set l v).
Proof. intros self _. split; reflexivity. Qed.

Lemma keeps_probe_memory_get q : keeps (probe_memory_get q).
Proof.
  intros self _. unfold probe_memory_get.
  destruct (Dict.get q (probe_memory self)); apply same_refl.
Qed.

Lemma keeps_probe_memory_set v : keeps (probe_memory_set p v).
Proof.
  intros self Hp. split; cbn; auto. now apply DictFacts.keys_set_in.
Qed.

Lemma keeps_body_rest rec (cur label : option string) :
  (forall q self, same_drawing_and_probes self (snd (rec q HNone self))) ->
  keeps
    (if opt_eqb cur label
     then ret tt
     else
       bind (when (truthy cur)
                  match cur with
                  | Some l => hole_memory_set l None
                  | None => ret tt
                  end) (fun _ =>
       bind probe_memory_values (fun vals =>
       bind (when (truthy label && existsb (opt_eqb label) vals)
                  (bind probe_memory_keys (fun ks =>
                   for_each ks (fun other_probe =>
                     bind (probe_memory_get other_probe) (fun v =>
                     when (opt_eqb v label) (rec other_probe HNone))))))
            (fun _ =>
       bind (probe_memory_set p label) (fun _ =>
       when (truthy label)
            match label with
            | Some l => hole_memory_set l (Some p)
            | None => ret tt
            end))))).
Proof.
  intros Hrec. destruct (opt_eqb cur label); [apply keeps_ret|].
  apply keeps_bind.
  { apply keeps_when. destruct cur; [apply keeps_hole_memory_set|apply keeps_ret]. }
  intros _. apply keeps_bind; [intros self _; apply same_refl|].
  intros vals. apply keeps_bind.
  { apply keeps_when. apply keeps_bind; [intros self _; apply same_refl|].
    intros ks. apply keeps_for_each. intros q.
    apply keeps_bind; [apply keeps_probe_memory_get|].
    intros v. apply keeps_when. intros self _. apply Hrec. }
  intros _. apply keeps_bind; [apply keeps_probe_memory_set|].
  intros _. apply keeps_when.
  destruct label; [apply keeps_hole_memory_set|apply keeps_ret].
Qed.

End Shape.

(** Whatever the instance, the arguments and the outcome, a call of
    [set_probe_hole] leaves the drawing as it is and neither adds a key to
    [probe_memory] nor takes one away. *)
Theorem set_probe_hole_same_drawing_and_probes (labels : Dict.t (list Z))
        (d : nat) (p : string) (h : hole_arg) (self : ImplantSVG) :
  same_drawing_and_probes self (snd (set_probe_hole labels d p h self)).
Proof.
  revert p h self. induction d as [|d IH]; intros p h self.
  - apply same_refl.
  - cbn [set_probe_hole]. unfold set_probe_hole_body.
    destruct (negb (str_in p probes)); [apply same_refl|].
    unfold bind at 1. unfold lift.
    destruct (label_of_hole labels h) as [e|label]; [apply same_refl|].
    unfold bind at 1. unfold probe_memory_get at 1.
    destruct (Dict.get p (probe_memory self)) as [cur|] eqn:E;
      [|apply same_refl].
    apply (@keeps_body_rest p (set_probe_hole labels d) cur label).
    + intros q s. apply IH.
    + eapply DictFacts.get_some_in_keys; eauto.
Qed.

(** In every reachable instance the keys of [probe_memory] are the six
    probes, every label a probe holds is a label of the label space, every
    holder of a hole is one of the six probes and holds a label of the label
    space; when the labels are distinct the keys of [hole_memory] are the
    labels, in their order. *)
Theorem reachable_shape (labels : Dict.t (list Z)) (self : ImplantSVG) :
  reachable labels self ->
  Dict.keys (probe_memory self) = probes
  /\ (forall p l, Dict.get p (probe_memory self) = Some (Some l) ->
                  In p probes /\ In l (strings labels))
  /\ (forall l p, Dict.get l (hole_memory self) = Some (Some p) ->
                  In p probes /\ In l (strings labels))
  /\ (distinct (strings labels) = true ->
      Dict.keys (hole_memory self) = strings labels).
Proof.
  intros Hr. apply reachable_well_formed in Hr.
  assert (H1 : forall p l, Dict.get p (probe_memory self) = Some (Some l) ->
                           In p probes /\ In l (strings labels)).
  { intros p l H. split.
    - rewrite <- (wf_probes Hr). eapply DictFacts.get_some_in_keys; eauto.
    - eapply (wf_valid Hr); eauto. }
  split; [apply (wf_probes Hr)|]. split; [exact H1|]. split.
  - intros l p H. apply (wf_inverse Hr) in H. now apply H1.
  - intros Hd. rewrite (wf_holes Hr). apply init_hole_keys.
    now apply distinct_NoDup.
Qed.

Lemma reachable_shape_witness :
  Dict.keys (probe_memory A_in_B2) = probes
  /\ (forall p l, Dict.get p (probe_memory A_in_B2) = Some (Some l) ->
                  In p probes /\ In l (strings DR1_labels))
  /\ (forall l p, Dict.get l (hole_memory A_in_B2) = Some (Some p) ->
                  In p probes /\ In l (strings DR1_labels))
  /\ (distinct (strings DR1_labels) = true ->
      Dict.keys (hole_memory A_in_B2) = strings DR1_labels).
Proof. exact (reachable_shape A_in_B2_reachable). Defined.

(** ** Indices and labels *)

Lemma index_to_label_some labels i l :
  index_to_label labels (Some i) = inr (Some l) ->
  (0 <= i < Z.of_nat (List.length (strings labels)))%Z
  /\ nth_error (strings labels) (Z.to_nat i) = Some l.
Proof.
  unfold index_to_label.
  destruct ((0 <=? i)%Z && (i <? Z.of_nat (List.length (strings labels)))%Z)
    eqn:E; cbn [negb]; [|discriminate].
  apply andb_true_iff in E. destruct E as [E1 E2].
  apply Z.leb_le in E1. apply Z.ltb_lt in E2.
  destruct (nth_error (strings labels) (Z.to_nat i)); [|discriminate].
  intros [= ->]. split; [lia|reflexivity].
Qed.

Lemma index_to_label_nth labels i l :
  (0 <= i < Z.of_nat (List.length (strings labels)))%Z ->
  nth_error (strings labels) (Z.to_nat i) = Some l ->
  index_to_label labels (Some i) = inr (Some l).
Proof.
  intros Hi Hn. unfold index_to_label.
  destruct ((0 <=? i)%Z && (i <? Z.of_nat (List.length (strings labels)))%Z)
    eqn:E; cbn [negb].
  - now rewrite Hn.
  - apply andb_false_iff in E.
    destruct E as [E|E]; [apply Z.leb_gt in E|apply Z.ltb_ge in E]; lia.
Qed.

(** [index_to_label] maps the indices 0 .. len(strings)-1 onto the labels:
    every index in range gives a label, every label is given by an index in
    range, two indices give the same label only if they are equal when the
    labels are distinct; and [index_to_label(None)] is [None]. *)
Theorem index_to_label_onto (labels : Dict.t (list Z)) :
  (forall i, (0 <= i < Z.of_nat (List.length (strings labels)))%Z ->
             exists l, index_to_label labels (Some i) = inr (Some l)
                       /\ In l (strings labels))
  /\ (forall l, In l (strings labels) ->
                exists i, (0 <= i < Z.of_nat (List.length (strings labels)))%Z
                          /\ index_to_label labels (Some i) = inr (Some l))
  /\ (distinct (strings labels) = true ->
      forall i j l, index_to_label labels (Some i) = inr (Some l) ->
                    index_to_label labels (Some j) = inr (Some l) ->
                    i = j)
  /\ index_to_label labels None = inr None.
Proof.
  split; [|split; [|split; [|reflexivity]]].
  - intros i Hi.
    destruct (nth_error (strings labels) (Z.to_nat i)) as [l|] eqn:E.
    + exists l. split; [now apply index_to_label_nth|].
      eapply nth_error_In; eauto.
    + apply nth_error_None in E. lia.
  - intros l Hl. apply In_nth_error in Hl. destruct Hl as [n Hn].
    assert (Hlt : (n < List.length (strings labels))%nat).
    { apply nth_error_Some. congruence. }
    exists (Z.of_nat n). split; [lia|].
    apply index_to_label_nth; [lia|]. now rewrite Nat2Z.id.
  - intros Hd i j l Hi Hj. apply distinct_NoDup in Hd.
    apply index_to_label_some in Hi, Hj.
    destruct Hi as [Hi1 Hi2], Hj as [Hj1 Hj2].
    assert (E : Z.to_nat i = Z.to_nat j).
    { eapply NoDup_nth_error; eauto; [|congruence].
      apply nth_error_Some. congruence. }
    lia.
Qed.

(** An index in range and the label it stands for are the same argument:
    [set_probe_hole(p, i)] does what [set_probe_hole(p, strings[i])] does,
    on every instance and at every depth. *)
Theorem set_probe_hole_index_is_label (labels : Dict.t (list Z)) (i : Z)
        (l : string) (d : nat) (p : string) (self : ImplantSVG) :
  index_to_label labels (Some i) = inr (Some l) ->
  set_probe_hole labels d p (HInt i) self
  = set_probe_hole labels d p (HStr l) self.
Proof.
  intros H. destruct d as [|d]; [reflexivity|].
  cbn [set_probe_hole]. apply body_label_ext.
  cbn [label_of_hole]. rewrite H.
  apply index_to_label_some in H. destruct H as [_ H].
  apply nth_error_In, str_in_In in H. now rewrite H.
Qed.

Lemma set_probe_hole_index_is_label_witness :
  set_probe_hole DR1_labels 2 "C" (HInt 4) A_in_B2
  = set_probe_hole DR1_labels 2 "C" (HStr "B2") A_in_B2.
Proof.
  apply (@set_probe_hole_index_is_label DR1_labels 4%Z "B2" 2 "C" A_in_B2).
  reflexivity.
Defined.


(** ** What [json.dump(..., sort_keys=True)] does to a dictionary *)

Lemma insert_sorted_perm kv d : Permutation (insert_sorted kv d) (kv :: d).
Proof.
  induction d as [|kv' d IH]; cbn [insert_sorted]; [reflexivity|].
  destruct (String.leb (fst kv) (fst kv')); [reflexivity|].
  rewrite IH. apply perm_swap.
Qed.

Lemma sort_keys_perm d : Permutation (sort_keys d) d.
Proof.
  induction d as [|kv d IH]; cbn; [reflexivity|].
  change (fold_right insert_sorted [] d) with (sort_keys d).
  rewrite insert_sorted_perm. now constructor.
Qed.

Lemma insert_sorted_sorted kv d :
  Sorted (fun a b => String.leb a b = true) (Dict.keys d) ->
  Sorted (fun a b => String.leb a b = true) (Dict.keys (insert_sorted kv d)).
Proof.
  induction d as [|kv' d IH]; intros H; cbn [insert_sorted].
  - repeat constructor.
  - destruct (String.leb (fst kv) (fst kv')) eqn:E.
    + cbn [Dict.keys map]. constructor; [exact H|].
      constructor. exact E.
    + inversion H as [|? ? Hs Hh]. subst.
      cbn [Dict.keys map]. constructor; [now apply IH|].
      assert (E' : String.leb (fst kv') (fst kv) = true).
      { destruct (String.leb_total (fst kv) (fst kv')); congruence. }
      destruct d as [|kv'' d]; cbn [insert_sorted].
      * constructor. exact E'.
      * destruct (String.leb (fst kv) (fst kv'')); constructor; auto.
        inversion Hh. assumption.
Qed.

Lemma sort_keys_sorted d :
  Sorted (fun a b => String.leb a b = true) (Dict.keys (sort_keys d)).
Proof.
  induction d as [|kv d IH]; [constructor|].
  now apply insert_sorted_sorted.
Qed.

Lemma get_insert_sorted kv d k :
  ~ In (fst kv) (Dict.keys d) ->
  Dict.get k (insert_sorted kv d)
  = if fst kv =? k then Some (snd kv) else Dict.get k d.
Proof.
  destruct kv as [k0 v0]. cbn [fst snd].
  induction d as [|[k' v'] d IH]; intros Hk; cbn [insert_sorted fst].
  - reflexivity.
  - destruct (String.leb k0 k'); [reflexivity|].
    cbn [Dict.get]. rewrite IH by (intro; apply Hk; now right).
    destruct (String.eqb_spec k' k) as [->|_]; auto.
    destruct (String.eqb_spec k0 k) as [->|_]; auto.
    exfalso. apply Hk. now left.
Qed.

Lemma get_sort_keys d k :
  NoDup (Dict.keys d) -> Dict.get k (sort_keys d) = Dict.get k d.
Proof.
  induction d as [|[k0 v0] d IH]; intros Hnd; [reflexivity|].
  inversion Hnd as [|? ? Hk Hnd']. subst.
  change (sort_keys ((k0, v0) :: d)) with (insert_sorted (k0, v0) (sort_keys d)).
  rewrite get_insert_sorted.
  - cbn [fst snd Dict.get]. now rewrite IH.
  - cbn [fst]. intros Hin. apply Hk.
    unfold Dict.keys in *.
    eapply Permutation_in; [|exact Hin].
    apply Permutation_map, sort_keys_perm.
Qed.

(** What [targets_from_disk] reads after [targets_to_disk] has written a
    dictionary: the same items, by increasing key; so every key looks up
    what it did (dictionary keys being distinct). *)
Theorem targets_round_trip (targets : Dict.t (option string)) :
  exists loaded,
    targets_from_disk (targets_to_disk targets) = Some loaded
    /\ Permutation loaded targets
    /\ Sorted (fun a b => String.leb a b = true) (Dict.keys loaded)
    /\ (NoDup (Dict.keys targets) ->
        forall k, Dict.get k loaded = Dict.get k targets).
Proof.
  exists (sort_keys targets). split; [reflexivity|].
  split; [apply sort_keys_perm|]. split; [apply sort_keys_sorted|].
  intros Hnd k. now apply get_sort_keys.
Qed.

(** ** After [load_targets] *)

Lemma dict_ext {V} (d1 d2 : Dict.t V) :
  Dict.keys d1 = Dict.keys d2 ->
  NoDup (Dict.keys d1) ->
  (forall k, In k (Dict.keys d1) -> Dict.get k d1 = Dict.get k d2) ->
  d1 = d2.
Proof.
  revert d2. induction d1 as [|[k v] d1 IH]; intros [|[k' v'] d2] Hk Hnd Hget;
    try discriminate; auto.
  cbn in Hk. injection Hk as <- Hk.
  inversion Hnd as [|? ? Hnk Hnd']. subst.
  pose proof (Hget k (or_introl eq_refl)) as Hv.
  cbn in Hv. rewrite String.eqb_refl in Hv. injection Hv as <-.
  f_equal. apply IH; auto.
  intros k0 Hk0. specialize (Hget k0 (or_intror Hk0)). cbn in Hget.
  destruct (String.eqb_spec k k0) as [->|_]; [contradiction|exact Hget].
Qed.

Lemma keys_fold_set_none ls (d : Dict.t (option string)) :
  (forall l, In l ls -> In l (Dict.keys d)) ->
  Dict.keys (fold_left (fun h l => Dict.set l None h) ls d) = Dict.keys d.
Proof.
  revert d. induction ls as [|l ls IH]; intros d H; [reflexivity|].
  cbn [fold_left]. rewrite IH.
  - apply DictFacts.keys_set_in. apply H. now left.
  - intros l' Hl'. rewrite DictFacts.keys_set_in by (apply H; now left).
    apply H. now right.
Qed.

(** After [load_targets] has read a mapping that is not empty, whatever
    the mapping, [show_memory] draws the drawing of an instance without any
    assignment: the probes just loaded are not shown.  (Distinct labels, a
    reachable instance to load into.) *)
Theorem load_targets_then_show_memory (labels : Dict.t (list Z)) (f : file)
        (self : ImplantSVG) :
  distinct (strings labels) = true ->
  reachable labels self ->
  truthy_dict f = true ->
  show_memory (snd (load_targets labels f self))
  = show_memory (init labels (svg self)).
Proof.
  intros Hd Hr Hf. apply reachable_well_formed in Hr.
  pose proof (distinct_NoDup _ Hd) as Hnd.
  rewrite load_targets_closed. destruct f as [[|kv t]|]; try discriminate.
  cbn [snd]. unfold show_memory. cbn [svg hole_memory init].
  f_equal. unfold Dict.items.
  assert (Hk0 : Dict.keys (hole_memory self) = strings labels).
  { rewrite (wf_holes Hr). now apply init_hole_keys. }
  assert (Hk : Dict.keys (fold_left (fun h l => Dict.set l None h)
                                    (strings labels) (hole_memory self))
               = strings labels).
  { rewrite keys_fold_set_none; auto. intros l Hl. now rewrite Hk0. }
  apply dict_ext.
  - rewrite Hk. symmetry. apply (init_hole_keys labels "" Hnd).
  - now rewrite Hk.
  - intros k Hin. rewrite Hk in Hin.
    rewrite get_fold_set_none by assumption.
    rewrite <- (init_hole_keys labels "" Hnd) in Hin.
    apply DictFacts.in_keys_get in Hin. destruct Hin as [v Hv].
    cbn [init hole_memory] in Hv. rewrite Hv. f_equal.
    symmetry. eapply (init_hole_memory_none labels ""). exact Hv.
Qed.

Lemma load_targets_then_show_memory_witness :
  show_memory (snd (load_targets DR1_labels (save A_in_B2) A_in_B2))
  = show_memory (init DR1_labels (svg A_in_B2)).
Proof.
  apply (@load_targets_then_show_memory DR1_labels (save A_in_B2) A_in_B2).
  - reflexivity.
  - exact A_in_B2_reachable.
  - reflexivity.
Defined.

(** ** The two renderers *)

Lemma first_key_of_get l (d : Dict.t (option string)) k :
  NoDup (Dict.keys d) ->
  first_key_of l d = Some k -> Dict.get k d = Some (Some l).
Proof.
  induction d as [|[k' v] d IH]; intros Hnd; [discriminate|].
  inversion Hnd as [|? ? Hk Hnd']. subst.
  cbn [first_key_of Dict.get].
  destruct (opt_eqb v (Some l)) eqn:E.
  - intros [= ->]. rewrite String.eqb_refl. apply opt_eqb_eq in E. congruence.
  - intros H. specialize (IH Hnd' H).
    destruct (String.eqb_spec k' k) as [->|_]; auto.
    exfalso. apply Hk. eapply DictFacts.get_some_in_keys; eauto.
Qed.

Lemma get_first_key_of l (d : Dict.t (option string)) k :
  Dict.get k d = Some (Some l) -> first_key_of l d <> None.
Proof.
  induction d as [|[k' v] d IH]; [discriminate|].
  cbn [first_key_of Dict.get].
  destruct (opt_eqb v (Some l)) eqn:E; [discriminate|].
  destruct (k' =? k); auto.
  intros [= ->]. rewrite opt_eqb_refl in E. discriminate.
Qed.

Lemma holder_first_key_of labels self l :
  well_formed labels self ->
  holder self l = first_key_of l (probe_memory self).
Proof.
  intros Hwf.
  assert (Hnd : NoDup (Dict.keys (probe_memory self))).
  { rewrite (wf_probes Hwf). repeat constructor; simpl; intuition discriminate. }
  destruct (first_key_of l (probe_memory self)) as [k|] eqn:E.
  - apply first_key_of_get in E; auto. apply (wf_inverse Hwf) in E.
    unfold holder. now rewrite E.
  - unfold holder.
    destruct (Dict.get l (hole_memory self)) as [[p|]|] eqn:Eh; auto.
    apply (wf_inverse Hwf), get_first_key_of in Eh. contradiction.
Qed.

Lemma show_memory_fold labels self :
  distinct (strings labels) = true ->
  well_formed labels self ->
  show_memory self
  = fold_left (fun data l => replace (placeholder l) (marker (holder self l)) data)
              (strings labels) (svg self).
Proof.
  intros Hd Hwf.
  assert (Hkeys : Dict.keys (hole_memory self) = strings labels).
  { rewrite (wf_holes Hwf). now apply init_hole_keys, distinct_NoDup. }
  unfold show_memory, Dict.items.
  rewrite (@fold_items_keys string
             (fun k v data => replace (placeholder k) (marker v) data)
             (hole_memory self)).
  - fold (Dict.keys (hole_memory self)). now rewrite Hkeys.
  - intros [k v] Hin. apply DictFacts.in_items_get; auto.
    rewrite Hkeys. now apply distinct_NoDup.
Qed.

Lemma show_targets_data_fold labels svg0 targets :
  show_targets_data labels svg0 targets
  = fold_left (fun data l =>
                 replace (placeholder l) (marker (first_key_of l targets)) data)
              (strings labels) svg0.
Proof.
  unfold show_targets_data. apply fold_left_ext. intros data l.
  destruct (existsb (fun v => opt_eqb v (Some l)) (Dict.values targets))
    eqn:E; auto.
  now rewrite first_key_of_absent.
Qed.

(** For a reachable instance over distinct labels, [show_memory] draws
    exactly what the loop of [show_targets] draws from the instance's
    [probe_memory] on the same drawing, whatever the drawing. *)
Theorem show_memory_is_show_targets (labels : Dict.t (list Z))
        (self : ImplantSVG) :
  distinct (strings labels) = true ->
  reachable labels self ->
  show_memory self = show_targets_data labels (svg self) (probe_memory self).
Proof.
  intros Hd Hr. apply reachable_well_formed in Hr.
  rewrite (show_memory_fold Hd Hr), show_targets_data_fold.
  apply fold_left_ext. intros data l.
  now rewrite (holder_first_key_of l Hr).
Qed.

Lemma show_memory_is_show_targets_witness :
  show_memory A_in_B2
  = show_targets_data DR1_labels (svg A_in_B2) (probe_memory A_in_B2).
Proof.
  apply (@show_memory_is_show_targets DR1_labels A_in_B2).
  - reflexivity.
  - exact A_in_B2_reachable.
Defined.

(** ** A rendered drawing has no placeholder left *)

Lemma split_gt_pieces rest :
  Forall (fun piece => gt_free piece = true) rest ->
  forall piece, gt_free piece = true ->
                split_gt (piece ++ tail_str rest) = piece :: rest.
Proof.
  induction 1 as [|r rest Hr Hrest IH]; intros piece;
    induction piece as [|c piece IHp]; intros Hp.
  - reflexivity.
  - apply gt_free_cons in Hp. destruct Hp as [Hc Hp].
    cbn [append split_gt]. apply Ascii.eqb_neq in Hc. rewrite Hc.
    now rewrite (IHp Hp).
  - cbn [append tail_str split_gt]. rewrite Ascii.eqb_refl.
    now rewrite (IH r Hr).
  - apply gt_free_cons in Hp. destruct Hp as [Hc Hp].
    cbn [append split_gt]. apply Ascii.eqb_neq in Hc. rewrite Hc.
    now rewrite (IHp Hp).
Qed.

Lemma split_gt_concat pieces :
  pieces <> [] ->
  Forall (fun piece => gt_free piece = true) pieces ->
  split_gt (concat ">" pieces) = pieces.
Proof.
  intros Hne H. destruct pieces as [|piece rest]; [congruence|].
  inversion H. subst. rewrite concat_tail. now apply split_gt_pieces.
Qed.

Lemma render_piece_cases ls shown x :
  (render_piece ls shown x = x /\ forall l, In l ls -> x <> l ++ "</tspan")
  \/ exists l, In l ls /\ render_piece ls shown x = shown_text (shown l) ++ "</tspan".
Proof.
  induction ls as [|m ls IH]; cbn [render_piece].
  - left. split; [reflexivity|intros l []].
  - destruct (String.eqb_spec x (m ++ "</tspan")) as [E|E].
    + right. exists m. split; [now left|reflexivity].
    + destruct IH as [[H1 H2]|[l [Hl H]]].
      * left. split; auto. intros l [<-|Hl]; auto.
      * right. exists l. split; [now right|exact H].
Qed.

Lemma render_piece_not_placeholder ls shown x l :
  Forall (fun l => plain_label l = true) ls ->
  In l ls ->
  render_piece ls shown x <> l ++ "</tspan".
Proof.
  intros Hplain Hl. rewrite Forall_forall in Hplain.
  destruct (render_piece_cases ls shown x) as [[H1 H2]|[m [Hm H]]].
  - rewrite H1. now apply H2.
  - rewrite H. apply shown_not_placeholder. now apply Hplain.
Qed.

Lemma render_piece_idempotent ls shown x :
  Forall (fun l => plain_label l = true) ls ->
  render_piece ls shown (render_piece ls shown x) = render_piece ls shown x.
Proof.
  intros Hplain.
  destruct (render_piece_cases ls shown x) as [[H1 H2]|[m [Hm H]]].
  - now rewrite !H1.
  - rewrite H. now apply render_piece_shown.
Qed.

Lemma gt_free_render_piece ls shown x :
  (forall l p, In l ls -> shown l = Some p -> gt_free p = true) ->
  gt_free x = true -> gt_free (render_piece ls shown x) = true.
Proof.
  intros Hshown Hx.
  destruct (render_piece_cases ls shown x) as [[H1 H2]|[m [Hm H]]].
  - now rewrite H1.
  - rewrite H. apply gt_free_shown. intros p Hp. now apply (Hshown m p).
Qed.

Lemma count_occ_map_none f (xs : list string) (y : string) :
  (forall x, f x <> y) -> count_occ string_dec (map f xs) y = 0%nat.
Proof.
  intros H. induction xs as [|x xs IH]; [reflexivity|].
  cbn [map]. rewrite count_occ_cons_neq; auto.
Qed.

Lemma holder_gt_free labels self l p :
  well_formed labels self -> holder self l = Some p -> gt_free p = true.
Proof.
  intros Hwf Hp. unfold holder in Hp.
  destruct (Dict.get l (hole_memory self)) as [v|] eqn:E; [|discriminate].
  subst v. apply (wf_inverse Hwf) in E.
  apply DictFacts.get_some_in_keys in E. rewrite (wf_probes Hwf) in E.
  now apply probes_gt_free.
Qed.

(** [show_memory] as one pass over the pieces, for any instance that is
    well formed. *)
Lemma show_memory_pieces labels self :
  plain_labels labels = true ->
  well_formed labels self ->
  (forall l, In l (strings labels) -> (placeholders l (svg self) <= 1)%nat) ->
  show_memory self = render_pieces (strings labels) (holder self) (svg self).
Proof.
  intros Hlabels Hwf Hcount.
  assert (Hd : distinct (strings labels) = true).
  { unfold plain_labels in Hlabels. now apply andb_true_iff in Hlabels. }
  apply plain_labels_spec in Hlabels. destruct Hlabels as [Hplain _].
  rewrite (show_memory_fold Hd Hwf).
  apply render_fold_svg; auto.
  intros l p _. now apply holder_gt_free with labels.
Qed.

(** In what [show_memory] returns no label has a placeholder any more, and
    rendering it again, with the same assignments, changes nothing.
    (Plain distinct labels, a reachable instance, a drawing with at most
    one placeholder per label.) *)
Theorem show_memory_leaves_no_placeholder (labels : Dict.t (list Z))
        (self : ImplantSVG) :
  plain_labels labels = true ->
  reachable labels self ->
  (forall l, In l (strings labels) -> (placeholders l (svg self) <= 1)%nat) ->
  (forall l, In l (strings labels) -> placeholders l (show_memory self) = 0%nat)
  /\ show_memory (mkImplantSVG (show_memory self) (probe_memory self)
                               (hole_memory self))
     = show_memory self.
Proof.
  intros Hlabels Hr Hcount. apply reachable_well_formed in Hr.
  pose proof (show_memory_pieces Hlabels Hr Hcount) as Hout.
  destruct (plain_labels_spec _ Hlabels) as [Hplain _].
  set (f := render_piece (strings labels) (holder self)) in *.
  assert (Hfree : Forall (fun piece => gt_free piece = true)
                         (map_inner f (split_gt (svg self)))).
  { pose proof (split_gt_free (svg self)) as H.
    pose proof (split_gt_nonempty (svg self)) as Hne.
    destruct (split_gt (svg self)) as [|piece rest]; [congruence|].
    inversion H. subst. cbn [map_inner]. constructor; auto.
    apply Forall_map_init; auto. intros x Hx.
    apply gt_free_render_piece; auto.
    intros l p _. now apply holder_gt_free with labels. }
  assert (Hne : map_inner f (split_gt (svg self)) <> []).
  { pose proof (split_gt_nonempty (svg self)) as Hne.
    destruct (split_gt (svg self)); [congruence|discriminate]. }
  assert (Hsplit : split_gt (show_memory self)
                   = map_inner f (split_gt (svg self))).
  { rewrite Hout. unfold render_pieces. now apply split_gt_concat. }
  assert (Hzero : forall l, In l (strings labels) ->
                            placeholders l (show_memory self) = 0%nat).
  { intros l Hl. unfold placeholders. rewrite Hsplit.
    destruct (split_gt (svg self)) as [|piece rest]; [reflexivity|].
    unfold inner. cbn [map_inner tl]. rewrite removelast_map_init.
    apply count_occ_map_none. intros x.
    now apply render_piece_not_placeholder. }
  split; [exact Hzero|].
  assert (Hwf2 : well_formed labels
                   (mkImplantSVG (show_memory self) (probe_memory self)
                                 (hole_memory self))).
  { destruct Hr as [H1 H2 H3 H4]. constructor; assumption. }
  rewrite (show_memory_pieces Hlabels Hwf2).
  2:{ intros l Hl. cbn [svg]. rewrite (Hzero l Hl). lia. }
  cbn [svg]. unfold render_pieces. rewrite Hsplit.
  change (holder (mkImplantSVG (show_memory self) (probe_memory self)
                               (hole_memory self)))
    with (holder self).
  fold f. rewrite Hout. unfold render_pieces. fold f. f_equal.
  destruct (split_gt (svg self)) as [|piece rest]; [reflexivity|].
  cbn [map_inner]. f_equal. rewrite map_init_map_init.
  apply map_init_ext. intros x. now apply render_piece_idempotent.
Qed.

Lemma show_memory_leaves_no_placeholder_witness :
  (forall l, In l (strings DR1_labels) ->
             placeholders l (show_memory A_in_B2) = 0%nat)
  /\ show_memory (mkImplantSVG (show_memory A_in_B2) (probe_memory A_in_B2)
                               (hole_memory A_in_B2))
     = show_memory A_in_B2.
Proof.
  apply (@show_memory_leaves_no_placeholder DR1_labels A_in_B2).
  - reflexivity.
  - exact A_in_B2_reachable.
  - exact A_in_B2_placeholders.
Defined.

(** ** [show_targets] *)

Section ShowTargetsFacts.

Variable labels : Dict.t (list Z).

Lemma check_targets_none its :
  check_targets labels its = None
  <-> (forall p t, In (p, Some t) its -> t = "" \/ In t (strings labels)).
Proof.
  induction its as [|[p [t|]] its IH]; cbn [check_targets].
  - split; [intros _ p t []|reflexivity].
  - destruct (truthy (Some t) && negb (str_in t (strings labels))) eqn:E.
    + apply andb_true_iff in E. destruct E as [E1 E2].
      apply truthy_some in E1. apply negb_true_iff in E2.
      split.
      * destruct (Dict.get (first_char t) labels); discriminate.
      * intros H. destruct (H p t (or_introl eq_refl)) as [Ht|Ht].
        -- contradiction.
        -- apply str_in_In in Ht. congruence.
    + rewrite IH. split.
      * intros H q u [[= <- <-]|Hin]; [|eauto].
        apply andb_false_iff in E. destruct E as [E|E].
        -- left. cbn in E. apply negb_false_iff in E.
           now apply String.eqb_eq.
        -- right. apply negb_false_iff in E. now apply str_in_In.
      * intros H q u Hin. apply (H q u). now right.
  - rewrite IH. split.
    + intros H q u [[=]|Hin]. eauto.
    + intros H q u Hin. apply (H q u). now right.
Qed.

Lemma check_targets_some its e :
  check_targets labels its = Some e ->
  exists p t,
    In (p, Some t) its /\ t <> "" /\ ~ In t (strings labels)
    /\ ((e = ValueError_invalid_target t
         /\ In (first_char t) (Dict.keys labels))
        \/ (e = KeyError_labels (first_char t)
            /\ ~ In (first_char t) (Dict.keys labels))).
Proof.
  induction its as [|[p [t|]] its IH]; cbn [check_targets]; [discriminate| |].
  - destruct (truthy (Some t) && negb (str_in t (strings labels))) eqn:E.
    + apply andb_true_iff in E. destruct E as [E1 E2].
      apply truthy_some in E1. apply negb_true_iff in E2.
      intros H. exists p, t. split; [now left|]. split; [exact E1|]. split.
      { intros Hin. apply str_in_In in Hin. congruence. }
      destruct (Dict.get (first_char t) labels) as [a|] eqn:Eg;
        injection H as <-.
      * left. split; auto. eapply DictFacts.get_some_in_keys; eauto.
      * right. split; auto. now apply DictFacts.get_none_not_in_keys.
    + intros H. destruct (IH H) as (q & u & Hin & Hrest).
      exists q, u. split; [now right|exact Hrest].
  - intros H. destruct (IH H) as (q & u & Hin & Hrest).
    exists q, u. split; [now right|exact Hrest].
Qed.

Lemma check_targets_app its1 its2 :
  check_targets labels (its1 ++ its2)%list
  = match check_targets labels its1 with
    | Some e => Some e
    | None => check_targets labels its2
    end.
Proof.
  induction its1 as [|[p [t|]] its1 IH]; cbn [app check_targets]; auto.
  destruct (truthy (Some t) && negb (str_in t (strings labels))); auto.
  now destruct (Dict.get (first_char t) labels).
Qed.

Lemma check_targets_invalid p t its :
  t <> "" -> ~ In t (strings labels) ->
  check_targets labels ((p, Some t) :: its)
  = Some (match Dict.get (first_char t) labels with
          | Some _ => ValueError_invalid_target t
          | None => KeyError_labels (first_char t)
          end).
Proof.
  intros Ht Hin. cbn [check_targets].
  assert (E1 : truthy (Some t) = true) by now apply truthy_some.
  assert (E2 : str_in t (strings labels) = false).
  { destruct (str_in t (strings labels)) eqn:E; auto.
    apply str_in_In in E. contradiction. }
  rewrite E1, E2. cbn [negb andb].
  now destruct (Dict.get (first_char t) labels).
Qed.

End ShowTargetsFacts.

Lemma set_new_last {V} (k : string) (v : V) (d : Dict.t V) :
  ~ In k (Dict.keys d) -> Dict.set k v d = (d ++ [(k, v)])%list.
Proof.
  induction d as [|[k' v'] d IH]; intros H; cbn [Dict.set app]; auto.
  destruct (String.eqb_spec k' k) as [->|_].
  - exfalso. apply H. now left.
  - f_equal. apply IH. intro Hin. apply H. now right.
Qed.

Lemma fold_set_append {V} (ps : list (string * V)) (d : Dict.t V) :
  NoDup (Dict.keys d ++ map fst ps)%list ->
  fold_left (fun d kv => Dict.set (fst kv) (snd kv) d) ps d = (d ++ ps)%list.
Proof.
  revert d. induction ps as [|[k v] ps IH]; intros d Hnd; cbn [fold_left].
  - now rewrite app_nil_r.
  - cbn [map fst] in Hnd.
    assert (Hk : ~ In k (Dict.keys d)).
    { intro Hin. apply NoDup_remove_2 in Hnd. apply Hnd.
      apply in_or_app. now left. }
    cbn [fst snd]. rewrite set_new_last by assumption.
    rewrite IH.
    + now rewrite <- app_assoc.
    + unfold Dict.keys. rewrite map_app, <- app_assoc. exact Hnd.
Qed.

Lemma of_pairs_distinct {V} (ps : list (string * V)) :
  NoDup (map fst ps) -> Dict.of_pairs ps = ps.
Proof. intros H. unfold Dict.of_pairs. now rewrite fold_set_append. Qed.

Lemma combine_keys_values {V} (d : Dict.t V) :
  combine (Dict.keys d) (Dict.values d) = d.
Proof.
  unfold Dict.keys, Dict.values.
  induction d as [|[k v] d IH]; cbn; congruence.
Qed.

Lemma str_or_none_hole_of_label v : str_or_none (hole_of_label v) = v.
Proof. now destruct v. Qed.

Lemma probes_NoDup : NoDup probes.
Proof. repeat constructor; simpl; intuition discriminate. Qed.

Lemma map_fst_combine {A B} (l : list A) (l' : list B) :
  List.length l = List.length l' -> map fst (combine l l') = l.
Proof.
  revert l'. induction l as [|x l IH]; intros [|y l'] H; try discriminate;
    cbn [combine map fst]; auto.
  f_equal. apply IH. now injection H.
Qed.

Lemma map_snd_combine {A B} (l : list A) (l' : list B) :
  List.length l = List.length l' -> map snd (combine l l') = l'.
Proof.
  revert l'. induction l as [|x l IH]; intros [|y l'] H; try discriminate;
    cbn [combine map snd]; auto.
  f_equal. apply IH. now injection H.
Qed.

Lemma combine_app {A B} (l1 l2 : list A) (l1' l2' : list B) :
  List.length l1 = List.length l1' ->
  combine (l1 ++ l2) (l1' ++ l2') = (combine l1 l1' ++ combine l2 l2')%list.
Proof.
  revert l1'. induction l1 as [|x l1 IH]; intros [|y l1'] H; try discriminate;
    cbn [combine app]; auto.
  f_equal. apply IH. now injection H.
Qed.

(** Lines 103-115 on six holes that are strings or [None], one of them a
    string that is not empty: [dict(zip('ABCDEF', target_holes))], whatever
    the targets file. *)
Lemma resolve_targets_str (disk : file) (target_holes : list hole_arg) :
  List.length target_holes = 6%nat ->
  forallb is_str_or_none target_holes = true ->
  existsb truthy_hole target_holes = true ->
  resolve_targets disk target_holes
  = combine probes (map str_or_none target_holes).
Proof.
  intros Hlen Hstr Hany. unfold resolve_targets. rewrite Hany, Hstr.
  cbn [negb andb].
  assert (Hint : forallb is_int_or_none target_holes = false).
  { apply existsb_exists in Hany. destruct Hany as [h [Hin Hh]].
    destruct (forallb is_int_or_none target_holes) eqn:E; auto.
    rewrite forallb_forall in E, Hstr.
    specialize (E h Hin). specialize (Hstr h Hin).
    destruct h; discriminate. }
  rewrite Hint. apply of_pairs_distinct.
  rewrite map_fst_combine; [apply probes_NoDup|].
  now rewrite length_map, Hlen.
Qed.

(** Labels among the arguments are checked one by one, and nothing else
    is: given six holes that are strings or [None], one of them a string
    that is not empty, lines 98-121 of [show_targets] raise nothing if and
    only if every string among the six is empty or a label of the label
    space; the drawing handed to [IPython.display.SVG] is then the one that
    the loop of lines 125-130 makes of [zip('ABCDEF', target_holes)] from
    the drawing of the class, whatever the targets file holds. *)
Theorem show_targets_accepts_labels (labels : Dict.t (list Z))
        (cls_svg : string) (disk : file) (target_holes : list hole_arg) :
  List.length target_holes = 6%nat ->
  forallb is_str_or_none target_holes = true ->
  existsb truthy_hole target_holes = true ->
  (forall t, In (HStr t) target_holes -> t = "" \/ In t (strings labels))
  <-> show_targets labels cls_svg disk target_holes
      = inr (show_targets_data labels cls_svg
               (combine probes (map str_or_none target_holes))).
Proof.
  intros Hlen Hstr Hany. unfold show_targets.
  rewrite (resolve_targets_str disk target_holes Hlen Hstr Hany), Hlen.
  cbn [Nat.eqb negb]. unfold Dict.items.
  set (targets := combine probes (map str_or_none target_holes)).
  assert (Hvalues : map snd targets = map str_or_none target_holes).
  { apply map_snd_combine. now rewrite length_map, Hlen. }
  pose proof (check_targets_none labels targets) as [Hc1 Hc2].
  split.
  - intros H. rewrite Hc2; [reflexivity|].
    intros p t Hin. apply H.
    assert (Hs : In (Some t) (map str_or_none target_holes)).
    { rewrite <- Hvalues. change (Some t) with (snd (p, Some t)).
      now apply in_map. }
    apply in_map_iff in Hs. destruct Hs as [h [Eh Hh]].
    destruct h as [|i|u]; try discriminate. now injection Eh as ->.
  - destruct (check_targets labels targets) as [e|] eqn:Ec; [discriminate|].
    intros _ t Ht.
    assert (Hs : In (Some t) (map snd targets)).
    { rewrite Hvalues. change (Some t) with (str_or_none (HStr t)).
      now apply in_map. }
    apply in_map_iff in Hs. destruct Hs as [[p v] [Ev Hin]].
    cbn [snd] in Ev. subst v. now apply (Hc1 eq_refl p t).
Qed.

Lemma show_targets_accepts_labels_witness :
  (forall t, In (HStr t) [HStr "B2"; HNone; HStr ""; HNone; HNone; HStr "A1"] ->
             t = "" \/ In t (strings DR1_labels))
  <-> show_targets DR1_labels "<tspan>A1</tspan><tspan>B2</tspan>" None
                   [HStr "B2"; HNone; HStr ""; HNone; HNone; HStr "A1"]
      = inr (show_targets_data DR1_labels "<tspan>A1</tspan><tspan>B2</tspan>"
               (combine probes
                  (map str_or_none
                     [HStr "B2"; HNone; HStr ""; HNone; HNone; HStr "A1"]))).
Proof.
  apply (@show_targets_accepts_labels DR1_labels
           "<tspan>A1</tspan><tspan>B2</tspan>" None
           [HStr "B2"; HNone; HStr ""; HNone; HNone; HStr "A1"]);
    reflexivity.
Defined.

(** The first string among the arguments that is no label decides what is
    raised: given six holes that are strings or [None], if the string [t]
    is not empty and not a label of the label space, and every string
    before it is empty or a label, then [show_targets] raises before it
    draws anything: the [ValueError] that names [t] when the first
    character of [t] is a key of [labels], the [KeyError] of that character
    when it is not.  The holes after [t], the drawing and the targets file
    play no part. *)
Theorem show_targets_first_invalid_label (labels : Dict.t (list Z))
        (cls_svg : string) (disk : file) (before after : list hole_arg)
        (t : string) :
  List.length (before ++ HStr t :: after)%list = 6%nat ->
  forallb is_str_or_none (before ++ HStr t :: after)%list = true ->
  (forall u, In (HStr u) before -> u = "" \/ In u (strings labels)) ->
  t <> "" ->
  ~ In t (strings labels) ->
  show_targets labels cls_svg disk (before ++ HStr t :: after)%list
  = inl (match Dict.get (first_char t) labels with
         | Some _ => ValueError_invalid_target t
         | None => KeyError_labels (first_char t)
         end).
Proof.
  intros Hlen Hstr Hbefore Ht Hin.
  assert (Hany : existsb truthy_hole (before ++ HStr t :: after)%list = true).
  { apply existsb_exists. exists (HStr t). split.
    - apply in_or_app. right. now left.
    - cbn. now apply negb_true_iff, String.eqb_neq. }
  unfold show_targets.
  rewrite (resolve_targets_str disk _ Hlen Hstr Hany), Hlen.
  cbn [Nat.eqb negb]. unfold Dict.items.
  rewrite length_app in Hlen. cbn [List.length] in Hlen.
  rewrite map_app. cbn [map str_or_none].
  rewrite <- (firstn_skipn (List.length before) probes).
  rewrite combine_app.
  2:{ rewrite length_map, length_firstn. cbn [probes List.length]. lia. }
  rewrite check_targets_app.
  assert (Hnone : check_targets labels
                    (combine (firstn (List.length before) probes)
                             (map str_or_none before)) = None).
  { apply check_targets_none. intros p u Hpu. apply Hbefore.
    apply in_combine_r in Hpu. apply in_map_iff in Hpu.
    destruct Hpu as [h [Eh Hh]].
    destruct h as [|i|v]; try discriminate. now injection Eh as ->. }
  rewrite Hnone.
  destruct (skipn (List.length before) probes) as [|p ps] eqn:E.
  - exfalso. apply (f_equal (@List.length string)) in E.
    rewrite length_skipn in E. cbn [probes List.length] in E. lia.
  - cbn [combine]. now rewrite check_targets_invalid.
Qed.

Lemma show_targets_first_invalid_label_witness :
  show_targets DR1_labels "<tspan>A1</tspan>" None
               ([HStr "A1"; HNone] ++ HStr "Z9" :: [HStr "B7"; HNone; HNone])%list
  = inl (match Dict.get (first_char "Z9") DR1_labels with
         | Some _ => ValueError_invalid_target "Z9"
         | None => KeyError_labels (first_char "Z9")
         end).
Proof.
  apply (@show_targets_first_invalid_label DR1_labels "<tspan>A1</tspan>" None
           [HStr "A1"; HNone] [HStr "B7"; HNone; HNone] "Z9").
  - reflexivity.
  - reflexivity.
  - intros u [[= <-]|[[=]|[]]]. right. cbn. now left.
  - discriminate.
  - cbn. intuition discriminate.
Defined.

(** A list of six holes that mixes integers and strings, one of them not
    zero or not empty, is drawn without any error as no target at all, even
    when the labels in it are not labels of the label space. *)
Theorem show_targets_mixed_draws_nothing (labels : Dict.t (list Z))
        (svg0 : string) (disk : file) (target_holes : list hole_arg) :
  List.length target_holes = 6%nat ->
  existsb truthy_hole target_holes = true ->
  forallb is_int_or_none target_holes = false ->
  forallb is_str_or_none target_holes = false ->
  show_targets labels svg0 disk target_holes
  = inr (show_targets_data labels svg0 Dict.empty).
Proof.
  intros Hl Hany Hint Hstr. unfold show_targets, resolve_targets.
  rewrite Hl, Hany, Hint, Hstr. reflexivity.
Qed.

Lemma show_targets_mixed_draws_nothing_witness :
  show_targets DR1_labels "<tspan>A1</tspan>" None
               [HInt 1; HStr "Z9"; HNone; HNone; HNone; HNone]
  = inr (show_targets_data DR1_labels "<tspan>A1</tspan>" Dict.empty).
Proof.
  apply (@show_targets_mixed_draws_nothing DR1_labels "<tspan>A1</tspan>" None
           [HInt 1; HStr "Z9"; HNone; HNone; HNone; HNone]);
    reflexivity.
Defined.

(** ** [show_targets] and the instance *)

Lemma show_memory_targets labels self :
  distinct (strings labels) = true ->
  well_formed labels self ->
  show_memory self = show_targets_data labels (svg self) (probe_memory self).
Proof.
  intros Hd Hwf.
  rewrite (show_memory_fold Hd Hwf), show_targets_data_fold.
  apply fold_left_ext. intros data l.
  now rewrite (holder_first_key_of l Hwf).
Qed.

Lemma check_targets_probe_memory labels self :
  well_formed labels self ->
  check_targets labels (probe_memory self) = None.
Proof.
  intros Hwf. apply check_targets_none. intros p t Hin. right.
  apply (wf_valid Hwf) with p. apply DictFacts.in_items_get; auto.
  rewrite (wf_probes Hwf). apply probes_NoDup.
Qed.

(** [show_targets] draws on the drawing of the class, [show_memory] on the
    drawing of the instance.  Passing to [show_targets] the labels that the
    six probes of a reachable instance hold, one of them at least holding
    one, hands to [IPython.display.SVG] what [show_memory] hands over for
    an instance with the same memories whose drawing is the drawing of the
    class, whatever the targets file; this is what [show_memory] hands over
    for the instance itself when its drawing is the drawing of the class,
    as it is for an instance made without a path. *)
Theorem show_targets_of_probe_memory (labels : Dict.t (list Z))
        (self : ImplantSVG) (cls_svg : string) (disk : file) (p l : string) :
  distinct (strings labels) = true ->
  reachable labels self ->
  Dict.get p (probe_memory self) = Some (Some l) ->
  show_targets labels cls_svg disk
               (map hole_of_label (Dict.values (probe_memory self)))
  = inr (show_memory
           (mkImplantSVG cls_svg (probe_memory self) (hole_memory self)))
  /\ (svg self = cls_svg ->
      show_targets labels cls_svg disk
                   (map hole_of_label (Dict.values (probe_memory self)))
      = inr (show_memory self)).
Proof.
  intros Hd Hr Hget. apply reachable_well_formed in Hr.
  set (holes := map hole_of_label (Dict.values (probe_memory self))).
  assert (Hlen : List.length holes = 6%nat).
  { unfold holes, Dict.values. rewrite !length_map.
    rewrite <- (length_map fst). fold (Dict.keys (probe_memory self)).
    now rewrite (wf_probes Hr). }
  assert (Hin : In (HStr l) holes).
  { unfold holes. change (HStr l) with (hole_of_label (Some l)).
    apply in_map. unfold Dict.values.
    change (Some l) with (snd (p, Some l)). apply in_map.
    now apply DictFacts.get_in_items. }
  assert (Hl : l <> "").
  { apply strings_nonempty with labels. eapply (wf_valid Hr); eauto. }
  assert (Hany : existsb truthy_hole holes = true).
  { apply existsb_exists. exists (HStr l). split; auto.
    cbn. now apply negb_true_iff, String.eqb_neq. }
  assert (Hstr : forallb is_str_or_none holes = true).
  { apply forallb_forall. intros h Hh. unfold holes in Hh.
    apply in_map_iff in Hh. destruct Hh as [v [<- _]]. now destruct v. }
  assert (Htargets : resolve_targets disk holes = probe_memory self).
  { rewrite (resolve_targets_str disk holes Hlen Hstr Hany).
    unfold holes. rewrite map_map.
    rewrite (map_ext _ (fun v => v) str_or_none_hole_of_label), map_id.
    rewrite <- (wf_probes Hr). apply combine_keys_values. }
  assert (Hwf : well_formed labels
                  (mkImplantSVG cls_svg (probe_memory self) (hole_memory self))).
  { destruct Hr as [H1 H2 H3 H4]. now constructor. }
  assert (Hshow : show_targets labels cls_svg disk holes
                  = inr (show_memory
                           (mkImplantSVG cls_svg (probe_memory self)
                                         (hole_memory self)))).
  { unfold show_targets. rewrite Hlen, Htargets. cbn [Nat.eqb negb].
    unfold Dict.items. rewrite (check_targets_probe_memory Hr).
    now rewrite (show_memory_targets Hd Hwf). }
  split; [exact Hshow|].
  intros <-. rewrite Hshow. now destruct self.
Qed.

Lemma show_targets_of_probe_memory_witness :
  show_targets DR1_labels "<tspan>B2</tspan>" None
               (map hole_of_label (Dict.values (probe_memory A_in_B2)))
  = inr (show_memory
           (mkImplantSVG "<tspan>B2</tspan>" (probe_memory A_in_B2)
                         (hole_memory A_in_B2)))
  /\ (svg A_in_B2 = "<tspan>B2</tspan>" ->
      show_targets DR1_labels "<tspan>B2</tspan>" None
                   (map hole_of_label (Dict.values (probe_memory A_in_B2)))
      = inr (show_memory A_in_B2)).
Proof.
  apply (@show_targets_of_probe_memory DR1_labels A_in_B2 "<tspan>B2</tspan>"
           None "A" "B2").
  - reflexivity.
  - exact A_in_B2_reachable.
  - reflexivity.
Defined.

(** Once [targets_to_disk] has written the [probe_memory] of a reachable
    instance to the targets file, [show_targets] called with six holes that
    are all [None] (or zero, or empty), its default among them, hands to
    [IPython.display.SVG] what [show_memory] hands over for an instance
    with the same memories whose drawing is the drawing of the class; this
    is what [show_memory] hands over for the instance itself when its
    drawing is the drawing of the class, as it is for an instance made
    without a path. *)
Theorem show_targets_default_reads_disk (labels : Dict.t (list Z))
        (self : ImplantSVG) (cls_svg : string)
        (target_holes : list hole_arg) :
  distinct (strings labels) = true ->
  reachable labels self ->
  List.length target_holes = 6%nat ->
  existsb truthy_hole target_holes = false ->
  show_targets labels cls_svg (targets_to_disk (probe_memory self))
               target_holes
  = inr (show_memory
           (mkImplantSVG cls_svg (probe_memory self) (hole_memory self)))
  /\ (svg self = cls_svg ->
      show_targets labels cls_svg (targets_to_disk (probe_memory self))
                   target_holes
      = inr (show_memory self)).
Proof.
  intros Hd Hr Hlen Hany. apply reachable_well_formed in Hr.
  assert (Htargets : resolve_targets (targets_to_disk (probe_memory self))
                                     target_holes
                     = probe_memory self).
  { unfold resolve_targets, targets_to_disk. rewrite Hany.
    rewrite sort_keys_probes by apply (wf_probes Hr).
    cbn [negb andb targets_from_disk truthy_dict].
    destruct (probe_memory self) as [|kv t] eqn:E; [|reflexivity].
    pose proof (wf_probes Hr) as H. rewrite E in H. discriminate. }
  assert (Hwf : well_formed labels
                  (mkImplantSVG cls_svg (probe_memory self) (hole_memory self))).
  { destruct Hr as [H1 H2 H3 H4]. now constructor. }
  assert (Hshow : show_targets labels cls_svg
                               (targets_to_disk (probe_memory self))
                               target_holes
                  = inr (show_memory
                           (mkImplantSVG cls_svg (probe_memory self)
                                         (hole_memory self)))).
  { unfold show_targets. rewrite Hlen, Htargets. cbn [Nat.eqb negb].
    unfold Dict.items. rewrite (check_targets_probe_memory Hr).
    now rewrite (show_memory_targets Hd Hwf). }
  split; [exact Hshow|].
  intros <-. rewrite Hshow. now destruct self.
Qed.

Lemma show_targets_default_reads_disk_witness :
  show_targets DR1_labels "<tspan>B2</tspan>"
               (targets_to_disk (probe_memory A_in_B2)) (repeat HNone 6)
  = inr (show_memory
           (mkImplantSVG "<tspan>B2</tspan>" (probe_memory A_in_B2)
                         (hole_memory A_in_B2)))
  /\ (svg A_in_B2 = "<tspan>B2</tspan>" ->
      show_targets DR1_labels "<tspan>B2</tspan>"
                   (targets_to_disk (probe_memory A_in_B2)) (repeat HNone 6)
      = inr (show_memory A_in_B2)).
Proof.
  apply (@show_targets_default_reads_disk DR1_labels A_in_B2
           "<tspan>B2</tspan>" (repeat HNone 6));
    try reflexivity.
  exact A_in_B2_reachable.
Defined.

(** An instance made from a path is drawn by [show_memory] on its own
    drawing and by [show_targets] on the drawing of the class: the two
    differ. *)
Example show_targets_ignores_instance_drawing :
  show_targets DR1_labels "<tspan>B2</tspan>" None
               (map hole_of_label (Dict.values (probe_memory A_in_B2)))
  = inr "<tspan> A</tspan>"
  /\ show_memory A_in_B2
     = "<text id='B2'><tspan> A</tspan><tspan></tspan></text>".
Proof. split; vm_compute; reflexivity. Qed.

(** ** A failure that is not atomic *)

Lemma displace_loop_fails labels d (l c p g : string) :
  c <> l -> ~ In g probes ->
  forall ks self,
    In g ks ->
    (forall k, In k ks -> In k (Dict.keys (probe_memory self))) ->
    Dict.get g (probe_memory self) = Some (Some l) ->
    Dict.get p (probe_memory self) = Some (Some c) ->
    Dict.get c (hole_memory self) = Some None ->
    l <> "" ->
    exists self',
      for_each ks
        (fun other_probe =>
           bind (probe_memory_get other_probe) (fun v =>
           when (opt_eqb v (Some l))
                (set_probe_hole labels (S d) other_probe HNone)))
        self
      = (inl (ValueError probe_must_be_one_of_A_F), self')
      /\ Dict.get p (probe_memory self') = Some (Some c)
      /\ Dict.get c (hole_memory self') = Some None.
Proof.
  intros Hcl Hg. induction ks as [|k ks IH];
    intros self Hin Hks Hgl Hpc Hch Hl; [destruct Hin|].
  assert (Hk : In k (Dict.keys (probe_memory self))) by (apply Hks; now left).
  apply DictFacts.in_keys_get in Hk. destruct Hk as [v Hv].
  cbn [for_each]. unfold bind at 1. unfold bind at 1.
  unfold probe_memory_get at 1. rewrite Hv.
  destruct (opt_eqb v (Some l)) eqn:E; cbn [when].
  - apply opt_eqb_eq in E. subst v.
    destruct (in_dec string_dec k probes) as [Hkp|Hkp].
    + rewrite (@set_probe_hole_unassigns labels d k l self); auto;
        [|now apply str_in_In].
      assert (Hkg : k <> g) by (intros ->; contradiction).
      assert (Hkp' : k <> p) by (intros ->; congruence).
      apply IH; cbn [probe_memory hole_memory]; auto.
      * destruct Hin as [->|Hin]; [congruence|assumption].
      * intros k' Hk'. rewrite DictFacts.keys_set_in.
        -- apply Hks. now right.
        -- eapply DictFacts.get_some_in_keys; eauto.
      * now rewrite DictFacts.get_set_other.
      * now rewrite DictFacts.get_set_other.
      * rewrite DictFacts.get_set_other; auto.
    + rewrite (@set_probe_hole_bad_probe labels d k HNone self Hkp).
      exists self. auto.
  - unfold ret at 1. apply IH; auto.
    + destruct Hin as [->|Hin]; auto.
      rewrite Hgl in Hv. injection Hv as <-.
      rewrite opt_eqb_refl in E. discriminate.
    + intros k' Hk'. apply Hks. now right.
Qed.

(** On an instance whose [probe_memory] has a key that is none of A-F, as
    [load_targets] leaves one behind, a call can fail after it has written:
    when that key holds label [l] and the valid probe [p] holds another
    label [c], [set_probe_hole(p, l)] raises the [ValueError] of the probe,
    and leaves [p] with [c] but hole [c] without a probe; if hole [c] had
    [p] before, the instance is not what it was. *)
Theorem set_probe_hole_fails_after_writing (labels : Dict.t (list Z))
        (self : ImplantSVG) (d : nat) (p l c g : string) :
  In p probes ->
  In l (strings labels) ->
  Dict.get p (probe_memory self) = Some (Some c) ->
  c <> "" -> c <> l ->
  ~ In g probes ->
  Dict.get g (probe_memory self) = Some (Some l) ->
  exists self',
    set_probe_hole labels (S (S d)) p (HStr l) self
    = (inl (ValueError probe_must_be_one_of_A_F), self')
    /\ Dict.get p (probe_memory self') = Some (Some c)
    /\ Dict.get c (hole_memory self') = Some None
    /\ (Dict.get c (hole_memory self) = Some (Some p) -> self' <> self).
Proof.
  intros Hp Hl Hpc Hc Hcl Hg Hgl.
  pose proof (@strings_nonempty labels l Hl) as Hl'.
  destruct self as [sv pm hm]. cbn [probe_memory hole_memory] in *.
  set (s1 := mkImplantSVG sv pm (Dict.set c None hm)).
  destruct (@displace_loop_fails labels d l c p g Hcl Hg (Dict.keys pm) s1)
    as (self' & Hloop & H1 & H2); cbn [probe_memory hole_memory s1]; auto.
  { eapply DictFacts.get_some_in_keys; eauto. }
  { apply DictFacts.get_set_same. }
  exists self'. split; [|split; [exact H1|split; [exact H2|]]].
  - change (set_probe_hole labels (S (S d)) p (HStr l))
      with (set_probe_hole_body labels (set_probe_hole labels (S d)) p (HStr l)).
    unfold set_probe_hole_body.
    apply str_in_In in Hp. rewrite Hp. cbn [negb].
    unfold bind at 1. unfold lift. rewrite (@label_of_hole_str labels l Hl).
    unfold bind at 1. unfold probe_memory_get at 1. cbn [probe_memory].
    rewrite Hpc.
    assert (E : opt_eqb (Some c) (Some l) = false)
      by (apply opt_eqb_neq; congruence).
    rewrite E. unfold bind at 1.
    apply truthy_some in Hc. rewrite Hc. cbn [when].
    unfold hole_memory_set at 1. cbn [svg probe_memory hole_memory].
    fold s1. unfold bind at 1. unfold probe_memory_values at 1.
    unfold bind at 1.
    assert (Ev : existsb (opt_eqb (Some l)) (Dict.values (probe_memory s1))
                 = true).
    { apply existsb_exists. exists (Some l). split; [|apply opt_eqb_refl].
      unfold Dict.values. change (Some l) with (snd (g, Some l)).
      apply in_map. now apply DictFacts.get_in_items. }
    rewrite Ev. apply truthy_some in Hl'. rewrite Hl'. cbn [andb when].
    unfold bind at 1. unfold probe_memory_keys at 1.
    subst s1. cbn [probe_memory] in *. now rewrite Hloop.
  - intros Hch Heq. rewrite Heq in H2. cbn [hole_memory] in H2. congruence.
Qed.

Lemma set_probe_hole_fails_after_writing_witness :
  exists self',
    set_probe_hole DR1_labels 2 "A" (HStr "A1") foreign_instance
    = (inl (ValueError probe_must_be_one_of_A_F), self')
    /\ Dict.get "A" (probe_memory self') = Some (Some "A3")
    /\ Dict.get "A3" (hole_memory self') = Some None
    /\ (Dict.get "A3" (hole_memory foreign_instance) = Some (Some "A") ->
        self' <> foreign_instance).
Proof.
  apply (@set_probe_hole_fails_after_writing DR1_labels foreign_instance 0
           "A" "A1" "A3" "G").
  - simpl; tauto.
  - vm_compute; tauto.
  - reflexivity.
  - discriminate.
  - discriminate.
  - simpl. intuition discriminate.
  - reflexivity.
Defined.

(** ** The default of [hole_memory] *)

Lemma get_fold_set_diag (ps : list (string * string)) (d : Dict.t string) k :
  (forall kv, In kv ps -> snd kv = fst kv) ->
  Dict.get k (fold_left (fun d kv => Dict.set (fst kv) (snd kv) d) ps d)
  = if str_in k (map fst ps) then Some k else Dict.get k d.
Proof.
  revert d. induction ps as [|[k' v'] ps IH]; intros d H; [reflexivity|].
  cbn [fold_left map fst snd]. rewrite IH by (intros kv Hkv; apply H; now right).
  unfold str_in. cbn [existsb]. fold (str_in k (map fst ps)).
  destruct (str_in k (map fst ps)); [now rewrite orb_true_r|].
  rewrite orb_false_r, DictFacts.get_set.
  specialize (H (k', v') (or_introl eq_refl)). cbn in H. subst v'.
  rewrite (String.eqb_sym k k').
  destruct (String.eqb_spec k' k) as [->|_]; reflexivity.
Qed.

Lemma combine_same_fst (l : list string) : map fst (combine l l) = l.
Proof. induction l; cbn; congruence. Qed.

Lemma combine_same_diag (l : list string) kv :
  In kv (combine l l) -> snd kv = fst kv.
Proof.
  induction l as [|x l IH]; cbn; [tauto|].
  intros [<-|H]; auto.
Qed.

(** [hole_memory_default] gives every label its own text and has no other
    key, whatever the label space, repeated labels included. *)
Theorem hole_memory_default_lookup (labels : Dict.t (list Z)) (l : string) :
  Dict.get l (hole_memory_default labels)
  = if str_in l (strings labels) then Some l else None.
Proof.
  unfold hole_memory_default, Dict.of_pairs.
  rewrite get_fold_set_diag by apply combine_same_diag.
  now rewrite combine_same_fst.
Qed.

(** ** Calls on different probes and different holes *)

Section Commute.

Variable labels : Dict.t (list Z).

Lemma assigned_get_probe self p l cur q :
  well_formed labels self ->
  Dict.get p (probe_memory self) = Some cur ->
  In l (strings labels) ->
  Dict.get q (probe_memory (assigned p (Some l) cur self))
  = if p =? q then Some (Some l)
    else match Dict.get q (probe_memory self) with
         | Some v => Some (if opt_eqb v (Some l) then None else v)
         | None => None
         end.
Proof.
  intros Hwf Hcur Hl.
  destruct (opt_eqb cur (Some l)) eqn:E.
  - unfold assigned. rewrite E. apply opt_eqb_eq in E. subst cur.
    destruct (String.eqb_spec p q) as [<-|Hpq]; [exact Hcur|].
    destruct (Dict.get q (probe_memory self)) as [v|] eqn:Eq; auto.
    destruct (opt_eqb v (Some l)) eqn:Ev; auto.
    apply opt_eqb_eq in Ev. subst v. exfalso. apply Hpq.
    eapply well_formed_injective; eauto.
  - apply opt_eqb_neq in E.
    rewrite assigned_some; auto; [|now apply strings_nonempty with labels].
    cbn [probe_memory]. now rewrite DictFacts.get_set, get_clear_label.
Qed.

Lemma assigned_get_hole self p l cur l' :
  well_formed labels self ->
  Dict.get p (probe_memory self) = Some cur ->
  In l (strings labels) ->
  Dict.get l' (hole_memory (assigned p (Some l) cur self))
  = if l =? l' then Some (Some p)
    else if opt_eqb cur (Some l') then Some None
         else Dict.get l' (hole_memory self).
Proof.
  intros Hwf Hcur Hl.
  destruct (opt_eqb cur (Some l)) eqn:E.
  - unfold assigned. rewrite E. apply opt_eqb_eq in E. subst cur.
    destruct (String.eqb_spec l l') as [<-|Hll].
    + now apply (wf_inverse Hwf).
    + cbn [opt_eqb]. apply String.eqb_neq in Hll. now rewrite Hll.
  - apply opt_eqb_neq in E.
    rewrite assigned_some; auto; [|now apply strings_nonempty with labels].
    cbn [hole_memory]. rewrite DictFacts.get_set.
    destruct (l =? l'); auto.
    destruct cur as [c|]; auto.
    assert (Hc : truthy (Some c) = true).
    { apply truthy_some, strings_nonempty with labels.
      eapply (wf_valid Hwf); eauto. }
    rewrite Hc, DictFacts.get_set. reflexivity.
Qed.

Lemma svg_assigned p label cur self :
  svg (assigned p label cur self) = svg self.
Proof. unfold assigned. now destruct (opt_eqb cur label). Qed.

Lemma NoDup_keys_set {V} k (v : V) (d : Dict.t V) :
  NoDup (Dict.keys d) -> NoDup (Dict.keys (Dict.set k v d)).
Proof.
  intros H. destruct (in_dec string_dec k (Dict.keys d)) as [Hin|Hin].
  - now rewrite DictFacts.keys_set_in.
  - rewrite DictFacts.keys_set_new by assumption.
    eapply Permutation_NoDup; [apply Permutation_cons_append|].
    now constructor.
Qed.

Lemma NoDup_keys_of_pairs {V} (ps : list (string * V)) :
  NoDup (Dict.keys (Dict.of_pairs ps)).
Proof.
  unfold Dict.of_pairs.
  assert (H : forall d : Dict.t V,
             NoDup (Dict.keys d) ->
             NoDup (Dict.keys (fold_left
                                 (fun d kv => Dict.set (fst kv) (snd kv) d)
                                 ps d))).
  { induction ps as [|kv ps IH]; intros d Hd; auto.
    cbn [fold_left]. apply IH. now apply NoDup_keys_set. }
  apply H. constructor.
Qed.

Lemma well_formed_holes_NoDup self :
  well_formed labels self -> NoDup (Dict.keys (hole_memory self)).
Proof.
  intros Hwf. rewrite (wf_holes Hwf). cbn [init hole_memory].
  apply NoDup_keys_of_pairs.
Qed.

Lemma instance_ext (a b : ImplantSVG) :
  svg a = svg b -> probe_memory a = probe_memory b ->
  hole_memory a = hole_memory b -> a = b.
Proof. destruct a, b. cbn. congruence. Qed.

End Commute.

(** On a reachable instance, two calls that assign different labels to
    different probes can be made in either order: both orders succeed and
    leave the same instance. *)
Theorem set_probe_hole_commute (labels : Dict.t (list Z)) (self : ImplantSVG)
        (d : nat) (p1 p2 l1 l2 : string) :
  reachable labels self ->
  In p1 probes -> In p2 probes -> p1 <> p2 ->
  In l1 (strings labels) -> In l2 (strings labels) -> l1 <> l2 ->
  exists s1 s2 final,
    set_probe_hole labels (S (S d)) p1 (HStr l1) self = (inr tt, s1)
    /\ set_probe_hole labels (S (S d)) p2 (HStr l2) s1 = (inr tt, final)
    /\ set_probe_hole labels (S (S d)) p2 (HStr l2) self = (inr tt, s2)
    /\ set_probe_hole labels (S (S d)) p1 (HStr l1) s2 = (inr tt, final).
Proof.
  intros Hr Hp1 Hp2 Hp Hl1 Hl2 Hl. apply reachable_well_formed in Hr.
  pose proof (@label_of_hole_str labels l1 Hl1) as Hlab1.
  pose proof (@label_of_hole_str labels l2 Hl2) as Hlab2.
  destruct (@set_probe_hole_total labels d p1 _ _ self Hr Hp1 Hlab1)
    as [c1 [Hc1 Hrun1]].
  destruct (@set_probe_hole_total labels d p2 _ _ self Hr Hp2 Hlab2)
    as [c2 [Hc2 Hrun2]].
  set (s1 := assigned p1 (Some l1) c1 self) in *.
  set (s2 := assigned p2 (Some l2) c2 self) in *.
  assert (Hwf1 : well_formed labels s1).
  { apply assigned_well_formed; auto. now intros ? [= <-]. }
  assert (Hwf2 : well_formed labels s2).
  { apply assigned_well_formed; auto. now intros ? [= <-]. }
  destruct (@set_probe_hole_total labels d p2 _ _ s1 Hwf1 Hp2 Hlab2)
    as [c2' [Hc2' Hrun12]].
  destruct (@set_probe_hole_total labels d p1 _ _ s2 Hwf2 Hp1 Hlab1)
    as [c1' [Hc1' Hrun21]].
  exists s1, s2, (assigned p2 (Some l2) c2' s1).
  split; [exact Hrun1|]. split; [exact Hrun12|]. split; [exact Hrun2|].
  rewrite Hrun21. f_equal.
  assert (Hwf12 : well_formed labels (assigned p2 (Some l2) c2' s1)).
  { apply assigned_well_formed; auto. now intros ? [= <-]. }
  assert (Hwf21 : well_formed labels (assigned p1 (Some l1) c1' s2)).
  { apply assigned_well_formed; auto. now intros ? [= <-]. }
  (* what the probes held in between *)
  assert (E2 : c2' = if opt_eqb c2 (Some l1) then None else c2).
  { unfold s1 in Hc2'. rewrite (@assigned_get_probe labels self p1 l1 c1 p2 Hr Hc1 Hl1) in Hc2'.
    apply String.eqb_neq in Hp. rewrite Hp, Hc2 in Hc2'. congruence. }
  assert (E1 : c1' = if opt_eqb c1 (Some l2) then None else c1).
  { unfold s2 in Hc1'. rewrite (@assigned_get_probe labels self p2 l2 c2 p1 Hr Hc2 Hl2) in Hc1'.
    assert (Hp' : (p2 =? p1) = false) by (apply String.eqb_neq; congruence).
    rewrite Hp', Hc1 in Hc1'. congruence. }
  assert (Hl12 : (l1 =? l2) = false) by now apply String.eqb_neq.
  assert (Hl21 : (l2 =? l1) = false) by (apply String.eqb_neq; congruence).
  assert (Hp12 : (p1 =? p2) = false) by now apply String.eqb_neq.
  assert (Hp21 : (p2 =? p1) = false) by (apply String.eqb_neq; congruence).
  apply instance_ext.
  - rewrite !svg_assigned. unfold s1, s2. now rewrite !svg_assigned.
  - apply dict_ext.
    + now rewrite (wf_probes Hwf21), (wf_probes Hwf12).
    + rewrite (wf_probes Hwf21). apply probes_NoDup.
    + intros k _.
      rewrite (@assigned_get_probe labels s2 p1 l1 c1' k Hwf2 Hc1' Hl1).
      rewrite (@assigned_get_probe labels s1 p2 l2 c2' k Hwf1 Hc2' Hl2).
      unfold s1, s2.
      rewrite (@assigned_get_probe labels self p1 l1 c1 k Hr Hc1 Hl1).
      rewrite (@assigned_get_probe labels self p2 l2 c2 k Hr Hc2 Hl2).
      destruct (String.eqb_spec p1 k) as [Ek1|Hk1];
        destruct (String.eqb_spec p2 k) as [Ek2|Hk2];
        try congruence; cbn [opt_eqb]; rewrite ?Hl12, ?Hl21; auto.
      destruct (Dict.get k (probe_memory self)) as [[v|]|]; auto.
      cbn [opt_eqb].
      destruct (String.eqb_spec v l1) as [Ev1|Hv1];
        destruct (String.eqb_spec v l2) as [Ev2|Hv2];
        try congruence; cbn [opt_eqb].
      * subst v. now rewrite String.eqb_refl.
      * subst v. now rewrite String.eqb_refl.
      * apply String.eqb_neq in Hv1, Hv2. now rewrite Hv1, Hv2.
  - apply dict_ext.
    + now rewrite (wf_holes Hwf21), (wf_holes Hwf12).
    + now apply well_formed_holes_NoDup with labels.
    + intros k _.
      rewrite (@assigned_get_hole labels s2 p1 l1 c1' k Hwf2 Hc1' Hl1).
      rewrite (@assigned_get_hole labels s1 p2 l2 c2' k Hwf1 Hc2' Hl2).
      unfold s1, s2.
      rewrite (@assigned_get_hole labels self p1 l1 c1 k Hr Hc1 Hl1).
      rewrite (@assigned_get_hole labels self p2 l2 c2 k Hr Hc2 Hl2).
      subst c1' c2'.
      destruct (String.eqb_spec l1 k) as [Ek1|Hn1];
        destruct (String.eqb_spec l2 k) as [Ek2|Hn2];
        try congruence; try subst k.
      * destruct (opt_eqb c2 (Some l1)) eqn:E; [reflexivity|].
        now rewrite E.
      * destruct (opt_eqb c1 (Some l2)) eqn:E; [reflexivity|].
        now rewrite E.
      * assert (Hq1 : forall c, opt_eqb (if opt_eqb c (Some l2) then None else c)
                                        (Some k) = opt_eqb c (Some k)).
        { intros c. destruct (opt_eqb c (Some l2)) eqn:E; auto.
          apply opt_eqb_eq in E. subst c. cbn.
          symmetry. now apply String.eqb_neq. }
        assert (Hq2 : forall c, opt_eqb (if opt_eqb c (Some l1) then None else c)
                                        (Some k) = opt_eqb c (Some k)).
        { intros c. destruct (opt_eqb c (Some l1)) eqn:E; auto.
          apply opt_eqb_eq in E. subst c. cbn.
          symmetry. now apply String.eqb_neq. }
        rewrite Hq1, Hq2.
        destruct (opt_eqb c1 (Some k)), (opt_eqb c2 (Some k)); reflexivity.
Qed.

Lemma set_probe_hole_commute_witness :
  exists s1 s2 final,
    set_probe_hole DR1_labels 2 "B" (HStr "B2") A_in_B2 = (inr tt, s1)
    /\ set_probe_hole DR1_labels 2 "A" (HStr "A1") s1 = (inr tt, final)
    /\ set_probe_hole DR1_labels 2 "A" (HStr "A1") A_in_B2 = (inr tt, s2)
    /\ set_probe_hole DR1_labels 2 "B" (HStr "B2") s2 = (inr tt, final).
Proof.
  apply (@set_probe_hole_commute DR1_labels A_in_B2 0 "B" "A" "B2" "A1").
  - exact A_in_B2_reachable.
  - simpl; tauto.
  - simpl; tauto.
  - discriminate.
  - vm_compute; tauto.
  - vm_compute; tauto.
  - discriminate.
Defined.
